(** * js-framework-demo: the reactive store and the template renderer of
    [src/main.js], embedded in Rocq.

    [Module ReactiveSystem] follows [reactiveSystem()] (lines 78-171): the
    dependency map, the active-effect slot, the pending queue, the [queued]
    flag, the Proxy traps and the flush that a microtask runs.
    [Module DomRendering] follows [domRendering()] (lines 190-237): the
    template cache, the stub markers and the two substitution passes. *)

From stdpp Require Import gmap strings list fin_maps pretty.

Open Scope string_scope.
Open Scope list_scope.
Open Scope nat_scope.
Set Warnings "-register-all".

(** ** JavaScript values stored in the state object

    Numbers are the integer-valued ones (exact in a double below 2^53), which
    is all the demo code uses. *)
Inductive value : Type :=
| VUndefined
| VNaN
| VNumber (z : Z)
| VBoolean (b : bool)
| VString (s : string).

(** [String(v)], the conversion [String.prototype.replace] and [+] apply. *)
Definition to_String (v : value) : string :=
  match v with
  | VUndefined => "undefined"
  | VNaN => "NaN"
  | VNumber z => pretty z
  | VBoolean true => "true"
  | VBoolean false => "false"
  | VString s => s
  end.

(** [a + b] on these values: concatenation as soon as one side is a string,
    numeric addition otherwise ([undefined] converts to [NaN]). *)
Definition js_add (a b : value) : value :=
  match a, b with
  | VString s, _ => VString (s +:+ to_String b)
  | _, VString s => VString (to_String a +:+ s)
  | VNumber x, VNumber y => VNumber (x + y)
  | VNumber x, VBoolean y => VNumber (x + if y then 1 else 0)
  | VBoolean x, VNumber y => VNumber ((if x then 1 else 0) + y)
  | VBoolean x, VBoolean y =>
      VNumber ((if x then 1 else 0) + (if y then 1 else 0))
  | _, _ => VNaN
  end.

(** [a === b]. *)
Definition js_strict_eq (a b : value) : bool :=
  match a, b with
  | VUndefined, VUndefined => true
  | VNumber x, VNumber y => bool_decide (x = y)
  | VBoolean x, VBoolean y => bool_decide (x = y)
  | VString x, VString y => bool_decide (x = y)
  | _, _ => false
  end.


Module ReactiveSystem.

(** ** Code that runs against the state proxy

    The body of an effect (and any other synchronous code that touches
    [state]) is a tree of the operations it performs on the proxy: a read
    [state.k] whose result the rest depends on, a write [state.k = v], a
    [console.log], a normal return or a [throw].  Calling [useEffect] from
    inside a running effect is the unsupported re-entrant use of section 5 of
    the specification and is not part of this language. *)
Inductive body : Type :=
| Ret
| Throw
| Get (k : string) (cont : value → body)
| Set_ (k : string) (v : value) (cont : body)
| Log (v : value) (cont : body).

(** An effect is a function object: [eff_id] stands for its reference
    identity, [eff_body] for what calling it does. *)
Record effect : Type := Effect { eff_id : nat; eff_body : body }.

(** Top-level code of a turn: synchronous proxy accesses, [useEffect(e)],
    [Promise.resolve().then(cb)] and [setTimeout(cb)]. *)
Inductive step : Type :=
| Exec (b : body)
| UseEffect (e : effect)
| PromiseThen (cb : list step)
| SetTimeout (cb : list step).

(** What the host's microtask queue holds: the callback that [onSet] passes
    to [queueMicrotask] (lines 139-142), or a promise reaction of the driver. *)
Inductive microtask : Type :=
| FlushTask
| ReactionTask (cb : list step).

(** Who called an effect: [useEffect] (line 87) or [flush] (line 123). *)
Inductive call : Type :=
| InitialCall (e : effect)
| FlushCall (e : effect).

(** ** The state of one [reactiveSystem()] instance and of its host

    The first five fields are the closure variables of lines 80, 83, 116, 118
    and 152.  [microtasks] and [timers] are the host's two task queues,
    [console] what [console.log] printed, and [calls] the history of the
    [effect()] calls made so far, oldest first. *)
Record system : Type := System {
  propertyKeyToEffectsMap : gmap string (list effect);
  currentEffect : option effect;
  effectsForFlush : list effect;
  queued : bool;
  rawState : gmap string value;
  microtasks : list microtask;
  timers : list (list step);
  console : list value;
  calls : list call
}.

Definition initial : system :=
  System ∅ None [] false ∅ [] [] [] [].

Definition set_map (m : gmap string (list effect)) (s : system) : system :=
  System m (currentEffect s) (effectsForFlush s) (queued s) (rawState s)
         (microtasks s) (timers s) (console s) (calls s).
Definition set_currentEffect (c : option effect) (s : system) : system :=
  System (propertyKeyToEffectsMap s) c (effectsForFlush s) (queued s)
         (rawState s) (microtasks s) (timers s) (console s) (calls s).
Definition set_effectsForFlush (q : list effect) (s : system) : system :=
  System (propertyKeyToEffectsMap s) (currentEffect s) q (queued s)
         (rawState s) (microtasks s) (timers s) (console s) (calls s).
Definition set_queued (b : bool) (s : system) : system :=
  System (propertyKeyToEffectsMap s) (currentEffect s) (effectsForFlush s) b
         (rawState s) (microtasks s) (timers s) (console s) (calls s).
Definition set_rawState (r : gmap string value) (s : system) : system :=
  System (propertyKeyToEffectsMap s) (currentEffect s) (effectsForFlush s)
         (queued s) r (microtasks s) (timers s) (console s) (calls s).
Definition set_microtasks (m : list microtask) (s : system) : system :=
  System (propertyKeyToEffectsMap s) (currentEffect s) (effectsForFlush s)
         (queued s) (rawState s) m (timers s) (console s) (calls s).
Definition set_timers (t : list (list step)) (s : system) : system :=
  System (propertyKeyToEffectsMap s) (currentEffect s) (effectsForFlush s)
         (queued s) (rawState s) (microtasks s) t (console s) (calls s).
Definition set_console (c : list value) (s : system) : system :=
  System (propertyKeyToEffectsMap s) (currentEffect s) (effectsForFlush s)
         (queued s) (rawState s) (microtasks s) (timers s) c (calls s).
Definition set_calls (c : list call) (s : system) : system :=
  System (propertyKeyToEffectsMap s) (currentEffect s) (effectsForFlush s)
         (queued s) (rawState s) (microtasks s) (timers s) (console s) c.

(** The effects listed under a key; a key without an entry lists none. *)
Definition registered (s : system) (k : string) : list effect :=
  default [] (propertyKeyToEffectsMap s !! k).

(** ** [createOnGet] (lines 94-106) *)
Definition onGet (k : string) (s : system) : system :=
  let s1 :=
    match propertyKeyToEffectsMap s !! k with
    | Some _ => s
    | None => set_map (<[k := []]> (propertyKeyToEffectsMap s)) s
    end in
  match currentEffect s1 with
  | Some e =>
      set_map (<[k := registered s1 k ++ [e]]> (propertyKeyToEffectsMap s1)) s1
  | None => s1
  end.

(** ** [createOnSet] (lines 130-145); the value written is not looked at. *)
Definition onSet (k : string) (newValue : value) (s : system) : system :=
  match propertyKeyToEffectsMap s !! k with
  | Some effects =>
      let s1 := set_effectsForFlush (effectsForFlush s ++ effects) s in
      if queued s1 then s1
      else set_microtasks (microtasks s1 ++ [FlushTask]) (set_queued true s1)
  | None => s
  end.

(** ** The Proxy traps (lines 154-164)

    [rawState] is read and written at its own properties; the names that
    [{}] inherits from [Object.prototype] are not among the keys. *)
Definition Reflect_get (s : system) (k : string) : value :=
  default VUndefined (rawState s !! k).

Definition proxy_get (k : string) (s : system) : value * system :=
  let s1 := onGet k s in (Reflect_get s1 k, s1).

Definition proxy_set (k : string) (v : value) (s : system) : system :=
  let s1 := onSet k v s in set_rawState (<[k := v]> (rawState s1)) s1.

(** ** Running code: it either returns or throws, in some state. *)
Inductive result : Type :=
| Normal (s : system)
| Threw (s : system).

Definition state_of (r : result) : system :=
  match r with Normal s | Threw s => s end.

Fixpoint exec (b : body) (s : system) : result :=
  match b with
  | Ret => Normal s
  | Throw => Threw s
  | Get k cont => let '(v, s1) := proxy_get k s in exec (cont v) s1
  | Set_ k v cont => exec cont (proxy_set k v s)
  | Log v cont => exec cont (set_console (console s ++ [v]) s)
  end.

Definition record_call (c : call) (s : system) : system :=
  set_calls (calls s ++ [c]) s.

(** ** [useEffect] (lines 85-89): a throwing [effect()] skips line 88. *)
Definition useEffect (e : effect) (s : system) : result :=
  let s1 := set_currentEffect (Some e) s in
  match exec (eff_body e) (record_call (InitialCall e) s1) with
  | Normal s2 => Normal (set_currentEffect None s2)
  | Threw s2 => Threw s2
  end.

(** ** [flush] (lines 120-128)

    The [for ... of] loop asks the array iterator for index [i] against the
    array's current length, so entries pushed while an effect runs are
    visited by the same loop.  The loop need not end (an effect can keep
    enqueuing itself), hence the fuel: [None] is a loop still running after
    [fuel] iterations. *)
Fixpoint flush_loop (fuel : nat) (i : nat) (s : system) : option result :=
  match fuel with
  | O => None
  | S fuel' =>
      match effectsForFlush s !! i with
      | None => Some (Normal (set_effectsForFlush [] s))
      | Some e =>
          match exec (eff_body e) (record_call (FlushCall e) s) with
          | Normal s1 => flush_loop fuel' (S i) s1
          | Threw s1 => Some (Threw s1)
          end
      end
  end.

Definition flush (fuel : nat) (s : system) : option result :=
  flush_loop fuel 0 s.

(** The state in which the loop of [flush] stands after [n] completed
    iterations, when it gets that far. *)
Fixpoint flush_at (n : nat) (i : nat) (s : system) : option system :=
  match n with
  | O => Some s
  | S n' =>
      match effectsForFlush s !! i with
      | None => None
      | Some e =>
          match exec (eff_body e) (record_call (FlushCall e) s) with
          | Normal s1 => flush_at n' (S i) s1
          | Threw _ => None
          end
      end
  end.

(** The microtask callback of lines 139-142: [queued = false], then [flush()]. *)
Definition flush_callback (fuel : nat) (s : system) : option result :=
  flush fuel (set_queued false s).

(** ** The host's event loop, as far as the driver code uses it

    A turn is a piece of top-level code run to completion; the microtask
    queue is emptied after it (oldest first), then the next timer callback
    is a turn of its own.  An exception that leaves a task is reported by
    the host and the loop goes on. *)
Definition run_step (st : step) (s : system) : result :=
  match st with
  | Exec b => exec b s
  | UseEffect e => useEffect e s
  | PromiseThen cb =>
      Normal (set_microtasks (microtasks s ++ [ReactionTask cb]) s)
  | SetTimeout cb => Normal (set_timers (timers s ++ [cb]) s)
  end.

Fixpoint run_script (sc : list step) (s : system) : result :=
  match sc with
  | [] => Normal s
  | st :: rest =>
      match run_step st s with
      | Normal s1 => run_script rest s1
      | Threw s1 => Threw s1
      end
  end.

Definition run_microtask (fuel : nat) (t : microtask) (s : system)
  : option result :=
  match t with
  | FlushTask => flush_callback fuel s
  | ReactionTask cb => Some (run_script cb s)
  end.

(** The microtask checkpoint: at most [n] microtasks are run. *)
Fixpoint drain (n fuel : nat) (s : system) : option system :=
  match n with
  | O => None
  | S n' =>
      match microtasks s with
      | [] => Some s
      | t :: rest =>
          match run_microtask fuel t (set_microtasks rest s) with
          | Some r => drain n' fuel (state_of r)
          | None => None
          end
      end
  end.

(** One turn: the code, then the microtask checkpoint. *)
Definition turn (n fuel : nat) (sc : list step) (s : system) : option system :=
  drain n fuel (state_of (run_script sc s)).

Fixpoint run_timers (m n fuel : nat) (s : system) : option system :=
  match m with
  | O => None
  | S m' =>
      match timers s with
      | [] => Some s
      | cb :: rest =>
          match turn n fuel cb (set_timers rest s) with
          | Some s1 => run_timers m' n fuel s1
          | None => None
          end
      end
  end.

Definition run_program (m n fuel : nat) (main : list step) (s : system)
  : option system :=
  match turn n fuel main s with
  | Some s1 => run_timers m n fuel s1
  | None => None
  end.

(** ** [reactiveSystemDemo] (lines 240-270) *)
Definition sumEffect : effect :=
  Effect 0 (Get "foo" (λ foo, Get "bar" (λ bar,
            Set_ "sum" (js_add foo bar) Ret))).

(** [console.log(state.sum === n)] *)
Definition log_sum_is (n : Z) (rest : body) : body :=
  Get "sum" (λ sum, Log (VBoolean (js_strict_eq sum (VNumber n))) rest).

Definition reactiveSystemDemo : list step :=
  [ Exec (Set_ "foo" (VNumber 1) (Set_ "bar" (VNumber 2) Ret));
    UseEffect sumEffect;
    Exec (log_sum_is 3 (Set_ "foo" (VNumber 2) Ret));
    PromiseThen
      [ Exec (log_sum_is 4 (Set_ "bar" (VNumber 3) Ret));
        PromiseThen [ Exec (log_sum_is 5 Ret) ] ];
    SetTimeout
      [ Exec (Set_ "foo" (VNumber 4) (Set_ "bar" (VNumber 4)
               (log_sum_is 5 Ret)));
        PromiseThen [ Exec (log_sum_is 8 Ret) ] ] ].

(** The flag and the microtask queue move together: either both stay, or
    the flag goes from false to true and one flush callback is queued. *)
Definition arms (s s' : system) : Prop :=
  (queued s' = queued s ∧ microtasks s' = microtasks s) ∨
  (queued s = false ∧ queued s' = true ∧
   microtasks s' = microtasks s ++ [FlushTask]).

(** ** Runs used in the statements below *)

(** The synchronous writes [state.k1 = v1; ...; state.kn = vn] of one turn. *)
Definition writes (ws : list (string * value)) : body :=
  foldr (λ kv rest, Set_ kv.1 kv.2 rest) Ret ws.

(** The store once all of them are done, the last write to a key winning. *)
Definition store_after (ws : list (string * value)) (r : gmap string value)
  : gmap string value :=
  foldl (λ m kv, <[kv.1 := kv.2]> m) r ws.

(** Some written key has a dependency-map entry. *)
Definition writes_tracked (ws : list (string * value)) (s : system) : Prop :=
  ∃ kv, kv ∈ ws ∧ is_Some (propertyKeyToEffectsMap s !! kv.1).

(** [state.sum] as stored, read without going through the proxy. *)
Definition sum_now (s : system) : value := Reflect_get s "sum".

(** Lines 243-248: [state.foo = 1; state.bar = 2; useEffect(sum = foo + bar)]. *)
Definition demo_setup : list step :=
  [ Exec (writes [("foo", VNumber 1); ("bar", VNumber 2)]);
    UseEffect sumEffect ].

(** The reference scenario, state by state: after the setup; after
    [state.foo = 2] and after the microtask checkpoint that follows; the same
    for [state.bar = 3]; the same for [state.foo = 4; state.bar = 4]. *)
Definition scn_registered : system := state_of (run_script demo_setup initial).
Definition scn_foo2 : system :=
  state_of (exec (writes [("foo", VNumber 2)]) scn_registered).
Definition scn_foo2_flushed : system := default scn_foo2 (drain 2 2 scn_foo2).
Definition scn_bar3 : system :=
  state_of (exec (writes [("bar", VNumber 3)]) scn_foo2_flushed).
Definition scn_bar3_flushed : system := default scn_bar3 (drain 2 2 scn_bar3).
Definition scn_both4 : system :=
  state_of (exec (writes [("foo", VNumber 4); ("bar", VNumber 4)])
                 scn_bar3_flushed).
Definition scn_both4_flushed : system :=
  default scn_both4 (drain 2 3 scn_both4).

(** The state of the microtask callback of lines 139-142 when the loop of
    its [flush()] has completed [n] iterations. *)
Definition callback_at (n : nat) (s : system) : option system :=
  flush_at n 0 (set_queued false s).

Definition is_Normal (r : result) : bool :=
  match r with Normal _ => true | Threw _ => false end.

(** A chain: [copy_x_to_y] reads [x] and writes [y], [copy_y_to_z] reads [y]
    and writes [z]; both are registered, then [x] is written. *)
Definition copy_x_to_y : effect :=
  Effect 1 (Get "x" (λ x, Set_ "y" x Ret)).
Definition copy_y_to_z : effect :=
  Effect 2 (Get "y" (λ y, Set_ "z" y Ret)).

Definition chain_armed : system :=
  state_of (run_script [ UseEffect copy_x_to_y; UseEffect copy_y_to_z;
                         Exec (writes [("x", VNumber 7)]) ] initial).

Definition chain_flushed : system :=
  match flush 5 chain_armed with
  | Some r => state_of r
  | None => chain_armed
  end.

(** An effect that reads [a] and then fails. *)
Definition failing : effect := Effect 3 (Get "a" (λ _, Throw)).

Definition after_failure : system := state_of (useEffect failing initial).

(** ** Further notions used in the statements below *)

(** The same code run against a plain object instead of the proxy: only the
    store and the console are there.  The result tells whether the code
    returned ([true]) or threw. *)
Fixpoint plain_exec (b : body) (store : gmap string value) (out : list value)
  : bool * gmap string value * list value :=
  match b with
  | Ret => (true, store, out)
  | Throw => (false, store, out)
  | Get k cont => plain_exec (cont (default VUndefined (store !! k))) store out
  | Set_ k v cont => plain_exec cont (<[k := v]> store) out
  | Log v cont => plain_exec cont store (out ++ [v])
  end.

(** Nothing is ever taken out of the dependency map: every entry of [s] is
    still there in [s'], with its list extended at the end at most. *)
Definition map_grows (s s' : system) : Prop :=
  ∀ k, (is_Some (propertyKeyToEffectsMap s !! k) →
        is_Some (propertyKeyToEffectsMap s' !! k)) ∧
       registered s k `prefix_of` registered s' k.

(** The number of flush callbacks waiting in a microtask queue. *)
Fixpoint pending_flushes (tasks : list microtask) : nat :=
  match tasks with
  | [] => 0
  | FlushTask :: rest => S (pending_flushes rest)
  | ReactionTask _ :: rest => pending_flushes rest
  end.

(** The flag tells whether a flush callback is waiting, and there is never
    more than one. *)
Definition flag_matches_queue (s : system) : Prop :=
  pending_flushes (microtasks s) = (if queued s then 1 else 0).


(** An effect of the shape of [state.k = g(state.k)]: it writes the key it
    reads. *)
Definition feedback (id : nat) (k : string) (g : value → value) : effect :=
  Effect id (Get k (λ x, Set_ k (g x) Ret)).

(** The state in which such an effect keeps the flush going: the slot is
    empty, and both the list of its key and the pending queue hold copies
    of it and nothing else. *)
Definition feeds (e : effect) (k : string) (s : system) : Prop :=
  currentEffect s = None ∧
  registered s k ≠ [] ∧
  (∀ x, x ∈ registered s k → x = e) ∧
  (∀ x, x ∈ effectsForFlush s → x = e).

(** [state.count = state.count + 1] registered on a fresh system. *)
Definition counting : effect :=
  feedback 4 "count" (λ x, js_add x (VNumber 1)).

Definition after_counting : system := state_of (useEffect counting initial).

(** Two registered effects, the second of which throws whenever it runs;
    [x] is written, then [a]. *)
Definition stale_armed : system :=
  state_of (run_script
              [ UseEffect copy_x_to_y;
                Exec (writes [("x", VNumber 1); ("a", VNumber 2)]) ]
              after_failure).

Definition stale_thrown : system :=
  match flush 5 stale_armed with
  | Some r => state_of r
  | None => stale_armed
  end.

(** [state.foo = 1] written again once the demo's effect is registered, and
    the state of the flush callback after its one iteration. *)
Definition rewritten : system := proxy_set "foo" (VNumber 1) scn_registered.
Definition rewritten_flushed : system :=
  default rewritten (callback_at 1 rewritten).

(** The demo from line 250 on, the setup being done. *)
Definition demo_rest : list step :=
  [ Exec (log_sum_is 3 (Set_ "foo" (VNumber 2) Ret));
    PromiseThen
      [ Exec (log_sum_is 4 (Set_ "bar" (VNumber 3) Ret));
        PromiseThen [ Exec (log_sum_is 5 Ret) ] ];
    SetTimeout
      [ Exec (Set_ "foo" (VNumber 4) (Set_ "bar" (VNumber 4)
               (log_sum_is 5 Ret)));
        PromiseThen [ Exec (log_sum_is 8 Ret) ] ] ].

Definition demo_end : system :=
  default scn_registered (run_program 3 8 4 demo_rest scn_registered).

(** The names that the object literal of line 152 inherits from
    [Object.prototype]: read through the proxy they give the inherited
    value, and [__proto__] is an accessor.  The store of the model holds
    the other keys. *)
Definition Object_prototype_names : list string :=
  [ "constructor"; "__defineGetter__"; "__defineSetter__"; "hasOwnProperty";
    "__lookupGetter__"; "__lookupSetter__"; "isPrototypeOf";
    "propertyIsEnumerable"; "toString"; "valueOf"; "__proto__";
    "toLocaleString" ].

End ReactiveSystem.

Module DomRendering.

(** ** DOM trees

    What the renderer touches of an element: its attribute list, in order,
    and its children.  Attribute names are as the parser left them. *)
Inductive node : Type :=
| Element (tagName : string) (attributes : list (string * string))
          (childNodes : list node)
| Text (data : string)
| Comment (data : string).

(** The getter of [textContent] on an element: the data of its text
    descendants in tree order; comments contribute nothing. *)
Fixpoint textContent (n : node) : string :=
  match n with
  | Element _ _ children => foldr (λ c acc, textContent c +:+ acc) "" children
  | Text data => data
  | Comment _ => ""
  end.

(** The setter: every child is dropped, and a single text node put in their
    place unless the string is empty. *)
Definition set_textContent (text : string) (n : node) : node :=
  match n with
  | Element tag attrs _ =>
      Element tag attrs (if decide (text = "") then [] else [Text text])
  | _ => n
  end.

(** [element.setAttribute(name, value)]: the first attribute of that name
    gets the value; a new attribute is appended when there is none.  The
    names are those of existing attributes, which [setAttribute] accepts. *)
Fixpoint setAttribute (name value : string) (attrs : list (string * string))
  : list (string * string) :=
  match attrs with
  | [] => [(name, value)]
  | (n, v) :: rest =>
      if decide (n = name) then (n, value) :: rest
      else (n, v) :: setAttribute name value rest
  end.

(** [fragment.firstElementChild], with its position among the children. *)
Fixpoint firstElementChild (children : list node) : option (nat * node) :=
  match children with
  | [] => None
  | Element tag attrs cs :: _ => Some (0, Element tag attrs cs)
  | _ :: rest => prod_map S id <$> firstElementChild rest
  end.

(** ** The regular expression [/__stub-(\d+)__/g] *)

Definition is_digit (c : Ascii.ascii) : bool :=
  let n := Ascii.N_of_ascii c in ((48 <=? n) && (n <=? 57))%N.

(** [s] without the prefix [p], if it starts with it. *)
Fixpoint strip_prefix (p s : string) : option string :=
  match p, s with
  | EmptyString, _ => Some s
  | String a p', String b s' =>
      if decide (a = b) then strip_prefix p' s' else None
  | String _ _, EmptyString => None
  end.

(** The longest run of digits at the start of [s], and what follows it. *)
Fixpoint span_digits (s : string) : string * string :=
  match s with
  | String c s' =>
      if is_digit c
      then let '(ds, rest) := span_digits s' in (String c ds, rest)
      else (EmptyString, s)
  | EmptyString => (EmptyString, EmptyString)
  end.

(** A match of the expression at the very start of [s]: the captured digits.
    [\d+] is greedy and what follows the digits must be [__], so the capture
    is the whole run of digits; the match is [9 + length digits] long. *)
Definition match_stub (s : string) : option string :=
  rest ← strip_prefix "__stub-" s;
  let '(ds, rest1) := span_digits rest in
  if decide (ds = "") then None
  else _ ← strip_prefix "__" rest1; Some ds.

(** [s.replace(/__stub-(\d+)__/g, (_, index) => f(index))]: matches are taken
    leftmost first and do not overlap; [skip] counts the characters of the
    current match still to be passed over. *)
Fixpoint replace_stubs_from (f : string → string) (skip : nat) (s : string)
  : string :=
  match s with
  | EmptyString => EmptyString
  | String c s' =>
      match skip with
      | S k => replace_stubs_from f k s'
      | O =>
          match match_stub s with
          | Some ds => f ds +:+ replace_stubs_from f (8 + String.length ds) s'
          | None => String c (replace_stubs_from f 0 s')
          end
      end
  end.

(** [/__stub-(\d+)__/.test(s)] *)
Fixpoint has_stub (s : string) : bool :=
  match s with
  | EmptyString => false
  | String _ s' =>
      match match_stub s with
      | Some _ => true
      | None => has_stub s'
      end
  end.

(** The captures of all the matches, in order. *)
Fixpoint stub_indices_from (skip : nat) (s : string) : list string :=
  match s with
  | EmptyString => []
  | String _ s' =>
      match skip with
      | S k => stub_indices_from k s'
      | O =>
          match match_stub s with
          | Some ds => ds :: stub_indices_from (8 + String.length ds) s'
          | None => stub_indices_from 0 s'
          end
      end
  end.

(** ** [valueOfStubs[index]] with [index] a string of digits

    The property key names the array element [i] only when it is the
    canonical decimal spelling of [i]; any other key, and an index past the
    end, gives [undefined]. *)
Definition digits_to_N (ds : string) : N :=
  foldl (λ acc c, (10 * acc + (Ascii.N_of_ascii c - 48))%N) 0%N
        (String.list_ascii_of_string ds).

Definition array_index (key : string) : option nat :=
  let n := digits_to_N key in
  if decide (pretty n = key) then Some (N.to_nat n) else None.

Definition array_get (valueOfStubs : list value) (key : string) : value :=
  default VUndefined (i ← array_index key; valueOfStubs !! i).

(** ** [replaceStubs] (lines 200-202); [replace] converts what the callback
    returns to a string. *)
Definition replaceStubs (stringWithStubs : string) (valueOfStubs : list value)
  : string :=
  replace_stubs_from (λ index, to_String (array_get valueOfStubs index)) 0
                     stringWithStubs.

(** ** Building the markup (lines 208-210) *)
Definition stub (index : nat) : string := "__stub-" +:+ pretty index +:+ "__".

Definition htmlStringWithStubs (tokens : list string) (expressions : list value)
  : string :=
  let stubs := imap (λ index _, stub index) expressions in
  let tokensWithStubs :=
    imap (λ index token,
            default "" (match index with
                        | O => None
                        | S i => stubs !! i
                        end) +:+ token) tokens in
  String.concat "" tokensWithStubs.

(** ** Objects with an identity

    The array of literal parts that a call site passes has an identity
    ([tok_id]) besides its content; the [WeakMap] is keyed by the identity.
    [objects] holds the content of every template and of every cloned
    fragment under the identity of that object, so that two clones of one
    template are two objects. *)
Record tokens : Type := Tokens { tok_id : positive; tok_strings : list string }.

Record renderer : Type := Renderer {
  tokensToTemplates : gmap positive nat;
  objects : gmap nat (list node)
}.

Definition empty_renderer : renderer := Renderer ∅ ∅.

(** A new object: its identity is one no object has. *)
Definition allocate (content : list node) (r : renderer) : nat * renderer :=
  let o := fresh (dom (objects r)) in
  (o, Renderer (tokensToTemplates r) (<[o := content]> (objects r))).

(** The loop of lines 220-222 over the live attribute list. *)
Fixpoint substitute_attributes (fuel i : nat) (expressions : list value)
    (attrs : list (string * string)) : list (string * string) :=
  match fuel with
  | O => attrs
  | S fuel' =>
      match attrs !! i with
      | None => attrs
      | Some (name, value) =>
          substitute_attributes fuel' (S i) expressions
            (setAttribute name (replaceStubs value expressions) attrs)
      end
  end.

(** Lines 219-225 on the element taken from the clone. *)
Definition substitute (expressions : list value) (n : node) : node :=
  match n with
  | Element tag attrs children =>
      let attrs' := substitute_attributes (length attrs) 0 expressions attrs in
      let element := Element tag attrs' children in
      set_textContent (replaceStubs (textContent element) expressions) element
  | _ => n
  end.

(** What [html] gives back: the element, named by the cloned fragment it is
    a child of and its position there, or the [TypeError] of reading
    [attributes] of [null] when the template has no element. *)
Inductive outcome : Type :=
| Returned (fragment : nat) (position : nat) (r : renderer)
| TypeError (r : renderer).

Definition renderer_of (o : outcome) : renderer :=
  match o with Returned _ _ r | TypeError r => r end.

(** The element a [Returned] outcome names. *)
Definition returned_element (o : outcome) : option node :=
  match o with
  | Returned c i r => objects r !! c ≫= (.!! i)
  | TypeError _ => None
  end.

(** Lines 216-227: the template's content is cloned, the first element of
    the clone taken, and the stubs in it replaced. *)
Definition clone_and_substitute (templateWithStubs : nat)
    (expressions : list value) (r : renderer) : outcome :=
  let content := default [] (objects r !! templateWithStubs) in
  let '(clonedNodeWithStubs, r1) := allocate content r in
  match firstElementChild content with
  | None => TypeError r1
  | Some (i, element) =>
      Returned clonedNodeWithStubs i
        (Renderer (tokensToTemplates r1)
           (<[clonedNodeWithStubs :=
                <[i := substitute expressions element]> content]>
              (objects r1)))
  end.

Section Html.
(** The host's parser behind [template.innerHTML = htmlString]. *)
Variable parseHTML : string → list node.

(** Lines 193-198: a new template object holding the parsed markup. *)
Definition transformHTMLStringToTemplate (htmlString : string) (r : renderer)
  : nat * renderer :=
  allocate (parseHTML htmlString) r.

(** Lines 208-213, the cache miss: the markup is built and parsed, and the
    template stored under the identity of [tk]. *)
Definition compile (tk : tokens) (expressions : list value) (r : renderer)
  : nat * renderer :=
  let '(template, r1) :=
    transformHTMLStringToTemplate
      (htmlStringWithStubs (tok_strings tk) expressions) r in
  (template,
   Renderer (<[tok_id tk := template]> (tokensToTemplates r1)) (objects r1)).

(** ** [html] (lines 204-228) *)
Definition html (tk : tokens) (expressions : list value) (r : renderer)
  : outcome :=
  match tokensToTemplates r !! tok_id tk with
  | Some templateWithStubs =>
      clone_and_substitute templateWithStubs expressions r
  | None =>
      let '(templateWithStubs, r1) := compile tk expressions r in
      clone_and_substitute templateWithStubs expressions r1
  end.
End Html.

(** A run of calls of [html], each on the renderer the previous one left. *)
Fixpoint html_calls (parseHTML : string → list node)
    (calls : list (tokens * list value)) (r : renderer) : renderer :=
  match calls with
  | [] => r
  | (tk, expressions) :: rest =>
      html_calls parseHTML rest (renderer_of (html parseHTML tk expressions r))
  end.

(** Every character of [s] is a digit. *)
Fixpoint all_digits (s : string) : bool :=
  match s with
  | EmptyString => true
  | String c s' => is_digit c && all_digits s'
  end.

(** Every cached template is an object. *)
Definition well_formed (r : renderer) : Prop :=
  ∀ id template, tokensToTemplates r !! id = Some template →
                 is_Some (objects r !! template).


(** The content [html] clones: that of the cached template on a hit, the
    freshly parsed markup on a miss. *)
Definition template_content (parseHTML : string → list node) (tk : tokens)
    (expressions : list value) (r : renderer) : list node :=
  match tokensToTemplates r !! tok_id tk with
  | Some template => default [] (objects r !! template)
  | None => parseHTML (htmlStringWithStubs (tok_strings tk) expressions)
  end.

(** The children the [textContent] setter leaves. *)
Definition text_children (text : string) : list node :=
  if decide (text = "") then [] else [Text text].

(** ** [render] (lines 230-232) and the markup used below *)

(** The double quote character. *)
Definition quote : string := String (Ascii.ascii_of_nat 34) EmptyString.

(** The literal parts of the template of line 231; one call site, one
    identity. *)
Definition render_tokens : tokens :=
  Tokens 1 ["<div class=" +:+ quote; quote +:+ ">"; "</div>"].

Definition render (parseHTML : string → list node) (color text : value)
    (r : renderer) : outcome :=
  html parseHTML render_tokens [color; text] r.


(** What the host's parser makes of the two markups above; it is not asked
    about any other. *)
Definition page_parser (htmlString : string) : list node :=
  if decide (htmlString = "<div class=" +:+ quote +:+ "__stub-0__" +:+ quote
                          +:+ ">__stub-1__</div>")
  then [Element "div" [("class", "__stub-0__")] [Text "__stub-1__"]]
  else if decide (htmlString = "<div><b>hi</b></div>")
  then [Element "div" [] [Element "b" [] [Text "hi"]]]
  else [].

(** The renderer after [render({ color: 'red', text: 'Red' })]. *)
Definition after_red : renderer :=
  renderer_of (render page_parser (VString "red") (VString "Red")
                      empty_renderer).


(** ** Further notions used in the statements below *)

Definition is_element (n : node) : bool :=
  match n with Element _ _ _ => true | _ => false end.

(** The template of line 231 as the parser is expected to return it. *)
Definition render_template : list node :=
  [Element "div" [("class", "__stub-0__")] [Text "__stub-1__"]].

(** A call site whose markup has no element at all. *)
Definition text_only_tokens : tokens := Tokens 3 ["just text"].

(** A string written as literal parts and stub markers: every element of
    [parts] is a literal followed by the marker with the given digits, and
    [last] is the literal after the last marker. *)
Fixpoint with_stubs (parts : list (string * string)) (last : string) : string :=
  match parts with
  | [] => last
  | (literal, ds) :: rest =>
      literal +:+ "__stub-" +:+ ds +:+ "__" +:+ with_stubs rest last
  end.

(** The same string with [f] of the digits in the place of every marker. *)
Fixpoint with_values (f : string → string) (parts : list (string * string))
    (last : string) : string :=
  match parts with
  | [] => last
  | (literal, ds) :: rest => literal +:+ f ds +:+ with_values f rest last
  end.

(** A literal written before a marker must neither hold a match of the
    expression nor end in the beginning of one that the underscores of the
    marker would complete; the digits of a marker are one digit at least. *)
Definition well_split (parts : list (string * string)) (last : string) : Prop :=
  (∀ literal ds, (literal, ds) ∈ parts →
     has_stub (literal +:+ "__") = false ∧
     all_digits ds = true ∧ ds ≠ "") ∧
  has_stub last = false.

(** The values whose conversion to a string [to_String] gives as
    [String()] does: an integer is written out in decimal only when its
    magnitude is below 2^53. *)
Definition printable (v : value) : Prop :=
  match v with
  | VNumber z => (Z.abs z < 2 ^ 53)%Z
  | _ => True
  end.

(** A template with a text and a comment before its first element and a
    second element after it. *)
Definition sibling_tokens : tokens :=
  Tokens 5 [" <!--c--><p>"; "</p><q>"; "</q>"].

Definition sibling_parser (htmlString : string) : list node :=
  if decide (htmlString = " <!--c--><p>__stub-0__</p><q>__stub-1__</q>")
  then [ Text " "; Comment "c"; Element "p" [] [Text "__stub-0__"];
         Element "q" [] [Text "__stub-1__"] ]
  else [].

(** The renderer after [html] was called at that site with two values. *)
Definition after_siblings : renderer :=
  renderer_of (html sibling_parser sibling_tokens [VString "a"; VString "b"]
                    empty_renderer).

(** What the host's parser makes of the markup of [text_only_tokens]: one
    text node; it is not asked about any other. *)
Definition text_parser (htmlString : string) : list node :=
  if decide (htmlString = "just text") then [Text "just text"] else [].

End DomRendering.

Import ReactiveSystem.

(** ** What one proxy access changes *)

Section Accesses.
Implicit Types (s : system) (k : string) (v : value) (e : effect).

Lemma onGet_idle k k' s :
  currentEffect s = None → registered (onGet k s) k' = registered s k'.
Proof.
  intros Hc. unfold onGet, registered. destruct (propertyKeyToEffectsMap s !! k) eqn:Hk; simpl.
  - by rewrite Hc.
  - rewrite Hc. simpl. destruct (decide (k = k')) as [->|Hne].
    + by rewrite lookup_insert_eq, Hk.
    + by rewrite lookup_insert_ne.
Qed.

Lemma onGet_active_same k s e :
  currentEffect s = Some e →
  registered (onGet k s) k = registered s k ++ [e].
Proof.
  intros Hc. unfold onGet, registered.
  destruct (propertyKeyToEffectsMap s !! k) eqn:Hk; simpl; rewrite Hc; simpl.
  - by rewrite lookup_insert_eq, Hk.
  - by rewrite !lookup_insert_eq.
Qed.

Lemma onGet_active_other k k' s e :
  currentEffect s = Some e → k ≠ k' →
  registered (onGet k s) k' = registered s k'.
Proof.
  intros Hc Hne. unfold onGet, registered.
  destruct (propertyKeyToEffectsMap s !! k) eqn:Hk; simpl; rewrite Hc; simpl.
  - by rewrite lookup_insert_ne.
  - by rewrite !lookup_insert_ne.
Qed.

Lemma onGet_entry k s : is_Some (propertyKeyToEffectsMap (onGet k s) !! k).
Proof.
  unfold onGet.
  destruct (propertyKeyToEffectsMap s !! k) eqn:Hk;
    destruct (currentEffect s) eqn:Hc; simpl; rewrite ?Hc; simpl;
    rewrite ?lookup_insert_eq, ?Hk; eauto.
Qed.

(** A read touches nothing but the dependency map. *)
Lemma onGet_frame k s :
  currentEffect (onGet k s) = currentEffect s ∧
  effectsForFlush (onGet k s) = effectsForFlush s ∧
  queued (onGet k s) = queued s ∧
  rawState (onGet k s) = rawState s ∧
  microtasks (onGet k s) = microtasks s ∧
  timers (onGet k s) = timers s ∧
  console (onGet k s) = console s ∧
  calls (onGet k s) = calls s.
Proof.
  unfold onGet.
  destruct (propertyKeyToEffectsMap s !! k);
    destruct (currentEffect s) eqn:Hc; simpl; rewrite ?Hc; simpl; done.
Qed.

(** A write to a key with an entry enqueues the whole list and arms. *)
Lemma onSet_tracked k v s effects :
  propertyKeyToEffectsMap s !! k = Some effects →
  effectsForFlush (onSet k v s) = effectsForFlush s ++ effects ∧
  queued (onSet k v s) = true ∧
  microtasks (onSet k v s) =
    (if queued s then microtasks s else microtasks s ++ [FlushTask]).
Proof.
  intros Hk. unfold onSet. rewrite Hk. simpl.
  destruct (queued s) eqn:Hq; simpl; done.
Qed.


Lemma onSet_queue k v s :
  effectsForFlush (onSet k v s) = effectsForFlush s ++ registered s k.
Proof.
  unfold onSet, registered.
  destruct (propertyKeyToEffectsMap s !! k); simpl.
  - by destruct (queued s).
  - by rewrite app_nil_r.
Qed.

(** A write touches neither the map, the slot nor the call history. *)
Lemma onSet_frame k v s :
  propertyKeyToEffectsMap (onSet k v s) = propertyKeyToEffectsMap s ∧
  currentEffect (onSet k v s) = currentEffect s ∧
  rawState (onSet k v s) = rawState s ∧
  timers (onSet k v s) = timers s ∧
  console (onSet k v s) = console s ∧
  calls (onSet k v s) = calls s.
Proof.
  unfold onSet. destruct (propertyKeyToEffectsMap s !! k); [|done].
  simpl. by destruct (queued s).
Qed.

Lemma arms_refl s : arms s s.
Proof. by left. Qed.

Lemma arms_trans s1 s2 s3 : arms s1 s2 → arms s2 s3 → arms s1 s3.
Proof.
  intros [[Hq Hm]|(Hq & Hq' & Hm)] [[Hq2 Hm2]|(Hq2 & Hq2' & Hm2)].
  - left. split; congruence.
  - right. repeat split; congruence.
  - right. repeat split; congruence.
  - congruence.
Qed.

Lemma onSet_arms k v s : arms s (onSet k v s).
Proof.
  unfold onSet. destruct (propertyKeyToEffectsMap s !! k); [|apply arms_refl].
  simpl. destruct (queued s) eqn:Hq; [by left|by right].
Qed.
End Accesses.

(** ** What running a body changes *)

Section Bodies.
Implicit Types (s : system) (k : string) (v : value) (e : effect) (b : body).

Lemma registered_proxy_set k k' v s :
  registered (proxy_set k v s) k' = registered s k'.
Proof.
  unfold proxy_set, registered. simpl.
  by destruct (onSet_frame k v s) as (-> & _).
Qed.

(** A body calls no effect, leaves the slot and the timers alone, only
    appends to the pending queue, and arms at most one flush. *)
Lemma exec_frame b s :
  currentEffect (state_of (exec b s)) = currentEffect s ∧
  calls (state_of (exec b s)) = calls s ∧
  timers (state_of (exec b s)) = timers s ∧
  effectsForFlush s `prefix_of` effectsForFlush (state_of (exec b s)) ∧
  arms s (state_of (exec b s)).
Proof.
  induction b as [| |k cont IH|k v cont IH|v cont IH] in s |- *; simpl.
  - split_and!; [done..|apply arms_refl].
  - split_and!; [done..|apply arms_refl].
  - destruct (onGet_frame k s) as (Hc & Hq & Hf & _ & Hm & Ht & _ & Hl).
    destruct (IH (Reflect_get (onGet k s) k) (onGet k s))
      as (IHc & IHl & IHt & IHq & IHa).
    split_and!; try congruence.
    eapply arms_trans; [|exact IHa]. left. by split.
  - destruct (onSet_frame k v s) as (_ & Hc & _ & Ht & _ & Hl).
    destruct (IH (proxy_set k v s)) as (IHc & IHl & IHt & IHq & IHa).
    unfold proxy_set in *. simpl in *.
    split_and!; try congruence.
    + etrans; [|exact IHq]. rewrite onSet_queue. by apply prefix_app_r.
    + eapply arms_trans; [|exact IHa].
      destruct (onSet_arms k v s) as [[? ?]|(? & ? & ?)]; [by left|by right].
  - destruct (IH (set_console (console s ++ [v]) s))
      as (IHc & IHl & IHt & IHq & IHa).
    split_and!; done.
Qed.

(** With the slot empty a body registers nothing. *)
Lemma exec_idle b s k :
  currentEffect s = None →
  registered (state_of (exec b s)) k = registered s k.
Proof.
  induction b as [| |k' cont IH|k' v cont IH|v cont IH] in s |- *;
    intros Hc; simpl; try done.
  - rewrite IH; [by apply onGet_idle|].
    by destruct (onGet_frame k' s) as (-> & _).
  - rewrite IH; [apply registered_proxy_set|].
    unfold proxy_set. simpl. by destruct (onSet_frame k' v s) as (_ & -> & _).
  - by rewrite IH.
Qed.

(** With [e] in the slot every registration a body makes is one of [e]. *)
Lemma exec_active b s e k :
  currentEffect s = Some e →
  ∃ n, registered (state_of (exec b s)) k = registered s k ++ replicate n e.
Proof.
  induction b as [| |k' cont IH|k' v cont IH|v cont IH] in s |- *;
    intros Hc; simpl.
  - exists 0. by rewrite app_nil_r.
  - exists 0. by rewrite app_nil_r.
  - destruct (IH (Reflect_get (onGet k' s) k') (onGet k' s)) as [n Hn].
    { by destruct (onGet_frame k' s) as (-> & _). }
    rewrite Hn. destruct (decide (k' = k)) as [->|Hne].
    + exists (S n). rewrite (onGet_active_same _ _ e), <- app_assoc; done.
    + exists n. by rewrite (onGet_active_other k' k s e).
  - destruct (IH (proxy_set k' v s)) as [n Hn].
    { unfold proxy_set. simpl. by destruct (onSet_frame k' v s) as (_ & -> & _). }
    exists n. by rewrite Hn, registered_proxy_set.
  - destruct (IH (set_console (console s ++ [v]) s)) as [n Hn]; [done|].
    by exists n.
Qed.
End Bodies.

(** ** The flush loop *)

Section FlushLoop.
Implicit Types (s : system) (k : string) (e : effect) (n i fuel : nat).

(** One iteration: the call is recorded, the queue only grows. *)
Lemma iteration_frame e s :
  let s1 := state_of (exec (eff_body e) (record_call (FlushCall e) s)) in
  calls s1 = calls s ++ [FlushCall e] ∧
  currentEffect s1 = currentEffect s ∧
  timers s1 = timers s ∧
  effectsForFlush s `prefix_of` effectsForFlush s1 ∧
  arms s s1.
Proof.
  destruct (exec_frame (eff_body e) (record_call (FlushCall e) s))
    as (Hc & Hl & Ht & Hq & Ha).
  simpl. split_and!; done.
Qed.

(** After [n] iterations from index [i] the loop has called, in order, the
    [n] queue entries from [i] on, whatever was appended meanwhile. *)
Lemma flush_at_calls n i s s' :
  flush_at n i s = Some s' →
  effectsForFlush s `prefix_of` effectsForFlush s' ∧
  calls s' = calls s ++ (FlushCall <$> take n (drop i (effectsForFlush s'))) ∧
  length (take n (drop i (effectsForFlush s'))) = n ∧
  currentEffect s' = currentEffect s ∧
  timers s' = timers s ∧
  arms s s'.
Proof.
  induction n as [|n IH] in i, s |- *; simpl.
  - intros [= ->]. rewrite app_nil_r. split_and!; [done..|apply arms_refl].
  - destruct (effectsForFlush s !! i) as [e|] eqn:Hi; [|done].
    destruct (iteration_frame e s) as (Hl & Hc & Ht & Hq & Ha).
    destruct (exec (eff_body e) (record_call (FlushCall e) s)) as [s1|s1];
      [|done].
    simpl in *. intros Hn.
    destruct (IH _ _ Hn) as (IHq & IHl & IHlen & IHc & IHt & IHa).
    assert (effectsForFlush s' !! i = Some e) as Hi'.
    { eapply prefix_lookup_Some; [exact Hi|]. by etrans. }
    rewrite (drop_S _ _ _ Hi'). simpl. split_and!.
    + by etrans.
    + by rewrite IHl, Hl, <- app_assoc.
    + by rewrite IHlen.
    + congruence.
    + congruence.
    + by eapply arms_trans.
Qed.


(** A pass that returns went through some number of iterations, found the
    queue exhausted and emptied it. *)
Lemma flush_loop_returns fuel i s s' :
  flush_loop fuel i s = Some (Normal s') →
  ∃ n sf, flush_at n i s = Some sf ∧
          effectsForFlush sf !! (i + n) = None ∧
          s' = set_effectsForFlush [] sf.
Proof.
  induction fuel as [|fuel IH] in i, s |- *; simpl; [done|].
  destruct (effectsForFlush s !! i) as [e|] eqn:Hi.
  - destruct (exec (eff_body e) (record_call (FlushCall e) s)) as [s1|s1]
      eqn:He; [|done].
    intros Hf. destruct (IH _ _ Hf) as (n & sf & Hn & Hend & ->).
    exists (S n), sf. simpl. rewrite Hi, He.
    split_and!; [done| |done]. by rewrite Nat.add_succ_r.
  - intros [= <-]. exists 0, s. by rewrite Nat.add_0_r.
Qed.

(** Conversely, a loop that exhausts the queue after [n] iterations returns
    for every fuel above [n]. *)
Lemma flush_loop_enough n fuel i s sf :
  flush_at n i s = Some sf → effectsForFlush sf !! (i + n) = None →
  n < fuel →
  flush_loop fuel i s = Some (Normal (set_effectsForFlush [] sf)).
Proof.
  induction n as [|n IH] in fuel, i, s |- *; simpl.
  - intros [= ->] Hend Hlt. destruct fuel as [|fuel]; [lia|]. simpl.
    by rewrite Nat.add_0_r in Hend; rewrite Hend.
  - destruct (effectsForFlush s !! i) as [e|] eqn:Hi; [|done].
    destruct (exec (eff_body e) (record_call (FlushCall e) s)) as [s1|s1]
      eqn:He; [|done].
    intros Hn Hend Hlt. destruct fuel as [|fuel]; [lia|]. simpl.
    rewrite Hi, He. apply IH; [done| |lia]. by rewrite Nat.add_succ_r in Hend.
Qed.

(** Whatever way a pass ends, the slot is as before, and an empty slot
    means no registration was made. *)
Lemma flush_loop_slot fuel i s r :
  flush_loop fuel i s = Some r →
  currentEffect (state_of r) = currentEffect s ∧
  (currentEffect s = None → ∀ k, registered (state_of r) k = registered s k).
Proof.
  induction fuel as [|fuel IH] in i, s |- *; simpl; [done|].
  destruct (effectsForFlush s !! i) as [e|] eqn:Hi.
  - destruct (iteration_frame e s) as (_ & Hc & _).
    pose proof (exec_idle (eff_body e) (record_call (FlushCall e) s)) as Hr.
    destruct (exec (eff_body e) (record_call (FlushCall e) s)) as [s1|s1].
    + intros Hf. destruct (IH _ _ Hf) as [IHc IHr]. simpl in *. split.
      * congruence.
      * intros Hn k. rewrite IHr; [by apply Hr|congruence].
    + intros [= <-]. simpl in *. split; [done|]. intros Hn k. by apply Hr.
  - intros [= <-]. by simpl.
Qed.
End FlushLoop.

(** ** Passes that return *)

Section FlushPass.
Implicit Types (s : system) (k : string) (n i j m fuel : nat).

Lemma flush_at_split j m i s :
  flush_at (j + m) i s = flush_at j i s ≫= flush_at m (i + j).
Proof.
  induction j as [|j IH] in i, s |- *; simpl.
  - by rewrite Nat.add_0_r.
  - destruct (effectsForFlush s !! i) as [e|]; [|done].
    destruct (exec (eff_body e) (record_call (FlushCall e) s)) as [s1|s1];
      [|done].
    by rewrite IH, Nat.add_succ_r.
Qed.

(** Every intermediate state of a pass that ends after [n] iterations lies
    on the way to its last state. *)
Lemma flush_at_before_end n j i s sf sj :
  flush_at n i s = Some sf → effectsForFlush sf !! (i + n) = None →
  flush_at j i s = Some sj →
  j ≤ n ∧ flush_at (n - j) (i + j) sj = Some sf.
Proof.
  intros Hn Hend Hj. destruct (decide (j ≤ n)) as [Hle|Hgt].
  - split; [done|]. replace n with (j + (n - j)) in Hn by lia.
    by rewrite flush_at_split, Hj in Hn.
  - exfalso. replace j with (n + S (j - n - 1)) in Hj by lia.
    rewrite flush_at_split, Hn in Hj. simpl in Hj. by rewrite Hend in Hj.
Qed.

Lemma prefix_take_eq {A} (l1 l2 : list A) j :
  l1 `prefix_of` l2 → j ≤ length l1 → take j l1 = take j l2.
Proof. intros [l ->] Hj. by rewrite take_app_le. Qed.

Lemma flush_at_calls_0 n s s' :
  flush_at n 0 s = Some s' →
  effectsForFlush s `prefix_of` effectsForFlush s' ∧
  calls s' = calls s ++ (FlushCall <$> take n (effectsForFlush s')) ∧
  n ≤ length (effectsForFlush s').
Proof.
  intros Hn. destruct (flush_at_calls _ _ _ _ Hn) as (Hp & Hl & Hlen & _).
  rewrite drop_0 in *. split_and!; [done..|].
  rewrite length_take in Hlen. lia.
Qed.

(** A pass that returns has called its final queue, entry by entry. *)
Lemma flush_returns_calls fuel s s' :
  flush fuel s = Some (Normal s') →
  ∃ n sf,
    flush_at n 0 s = Some sf ∧ effectsForFlush sf !! n = None ∧
    s' = set_effectsForFlush [] sf ∧
    length (effectsForFlush sf) = n ∧
    effectsForFlush s `prefix_of` effectsForFlush sf ∧
    calls s' = calls s ++ (FlushCall <$> effectsForFlush sf).
Proof.
  intros Hf. destruct (flush_loop_returns _ _ _ _ Hf) as (n & sf & Hn & Hend & ->).
  simpl in Hend. destruct (flush_at_calls_0 _ _ _ Hn) as (Hp & Hl & Hlen).
  pose proof (proj1 (lookup_ge_None _ _) Hend) as Hge.
  exists n, sf. split_and!; [done..|lia|done|].
  cbn [calls set_effectsForFlush]. rewrite Hl. by rewrite take_ge.
Qed.
(** Every entry of the queue gets its turn, unless an earlier call threw. *)
Lemma flush_at_progress j s :
  j ≤ length (effectsForFlush s) →
  (∃ sj, flush_at j 0 s = Some sj) ∨
  (∃ i si e si', i < j ∧ flush_at i 0 s = Some si ∧
                 effectsForFlush si !! i = Some e ∧
                 exec (eff_body e) (record_call (FlushCall e) si) = Threw si').
Proof.
  induction j as [|j IH]; intros Hj; [left; by eexists|].
  destruct IH as [[sj Hsj]|(i & si & e & si' & Hi & Hsi & He & Hthrew)];
    [lia| |].
  - destruct (flush_at_calls_0 _ _ _ Hsj) as ([more Hp] & _ & _).
    destruct (lookup_lt_is_Some_2 (effectsForFlush sj) j) as [e He].
    { rewrite Hp, length_app. lia. }
    destruct (exec (eff_body e) (record_call (FlushCall e) sj)) as [s'|s']
      eqn:Hexec.
    + left. exists s'. replace (S j) with (j + 1) by lia.
      rewrite flush_at_split, Hsj. simpl. by rewrite He, Hexec.
    + right. exists j, sj, e, s'. split_and!; [lia|done..].
  - right. exists i, si, e, si'. split_and!; [lia|done..].
Qed.
End FlushPass.

(** ** Coalescing of the writes of one turn *)

Section Coalescing.
Implicit Types (s : system) (k : string) (v : value).
Implicit Types (ws : list (string * value)).

Lemma arms_queued s s' : arms s s' → queued s = true → queued s' = true.
Proof. intros [[-> _]|(? & ? & _)] ?; congruence. Qed.

Lemma store_after_snoc ws k v (r : gmap string value) :
  store_after (ws ++ [(k, v)]) r = <[k := v]> (store_after ws r).
Proof. unfold store_after. by rewrite foldl_app. Qed.



Lemma exec_writes ws s :
  exec (writes ws) s = Normal (state_of (exec (writes ws) s)) ∧
  rawState (state_of (exec (writes ws) s)) = store_after ws (rawState s) ∧
  propertyKeyToEffectsMap (state_of (exec (writes ws) s)) =
    propertyKeyToEffectsMap s ∧
  effectsForFlush (state_of (exec (writes ws) s)) =
    effectsForFlush s ++ (ws ≫= λ kv, registered s kv.1) ∧
  (writes_tracked ws s → queued (state_of (exec (writes ws) s)) = true).
Proof.
  induction ws as [|[k v] ws IH] in s |- *.
  - simpl. rewrite app_nil_r. split_and!; try done.
    intros (kv & Hin & _). by apply elem_of_nil in Hin.
  - cbn [writes foldr exec fst snd]. fold (writes ws).
    destruct (IH (proxy_set k v s)) as (IHn & IHr & IHm & IHq & IHt).
    destruct (onSet_frame k v s) as (Hm & _ & Hraw & _).
    assert (propertyKeyToEffectsMap (proxy_set k v s) =
            propertyKeyToEffectsMap s) as Hm' by done.
    split_and!.
    + done.
    + rewrite IHr. unfold proxy_set. cbn [rawState set_rawState].
      by rewrite Hraw.
    + by rewrite IHm.
    + rewrite IHq. cbn [mbind list_bind fst]. fold (@mbind list _).
      unfold proxy_set at 1. cbn [effectsForFlush set_rawState].
      rewrite onSet_queue, <- app_assoc. do 2 f_equal.
      apply list_bind_ext; [|done]. intros kv. apply registered_proxy_set.
    + intros (kv & Hin & Hsome). apply elem_of_cons in Hin as [->|Hin].
      * simpl in Hsome. destruct Hsome as [effects Hk].
        destruct (onSet_tracked k v s effects Hk) as (_ & Hq & _).
        destruct (exec_frame (writes ws) (proxy_set k v s)) as (_ & _ & _ & _ & Ha).
        by apply (arms_queued _ _ Ha).
      * apply IHt. exists kv. by rewrite Hm'.
Qed.
End Coalescing.

Lemma Normal_state_of (r : result) :
  is_Normal r = true → r = Normal (state_of r).
Proof. by destruct r. Qed.

Lemma Some_default {A} (o : option A) (d : A) :
  bool_decide (is_Some o) = true → o = Some (default d o).
Proof. destruct o; [done|]. intros H. by apply bool_decide_eq_true in H as [? ?]. Qed.



(** ** The flush pass *)

(** C2. Entries appended to the pending queue while a flush pass runs are
    consumed by that same pass, in enqueue order.  A write made by a running
    effect appends the written key's list at the end of the queue.  However
    far a pass gets, after [j] iterations it has called exactly the first
    [j] entries of the queue as it then stands, of which the queue it
    started from is a prefix.  A pass that returns has gone through [n]
    iterations where [n] is the length of the queue as it stood at the end,
    has called exactly those entries in queue order, and leaves the queue
    empty, so that nothing is left for a later flush; every intermediate
    queue of the pass is a prefix of that final one; and the pass returns
    the same for every fuel above [n]. *)
Theorem flush_consumes_entries_appended_mid_pass s :
  (∀ k v sj,
     effectsForFlush (proxy_set k v sj) =
       effectsForFlush sj ++ registered sj k) ∧
  (∀ j sj, flush_at j 0 s = Some sj →
     effectsForFlush s `prefix_of` effectsForFlush sj ∧
     j ≤ length (effectsForFlush sj) ∧
     calls sj = calls s ++ (FlushCall <$> take j (effectsForFlush sj))) ∧
  (∀ fuel s', flush fuel s = Some (Normal s') →
     ∃ n sf,
       flush_at n 0 s = Some sf ∧ s' = set_effectsForFlush [] sf ∧
       length (effectsForFlush sf) = n ∧
       effectsForFlush s `prefix_of` effectsForFlush sf ∧
       calls s' = calls s ++ (FlushCall <$> effectsForFlush sf) ∧
       effectsForFlush s' = [] ∧
       (∀ j sj, flush_at j 0 s = Some sj →
          j ≤ n ∧
          effectsForFlush sj `prefix_of` effectsForFlush sf ∧
          calls sj = calls s ++ (FlushCall <$> take j (effectsForFlush sf))) ∧
       (∀ fuel', n < fuel' → flush fuel' s = Some (Normal s'))).
Proof.
  split_and!.
  - intros k v sj. unfold proxy_set. cbn [effectsForFlush set_rawState].
    apply onSet_queue.
  - intros j sj Hj. destruct (flush_at_calls_0 _ _ _ Hj) as (Hp & Hl & Hlen).
    by split_and!.
  - intros fuel s' Hf.
    destruct (flush_returns_calls _ _ _ Hf)
      as (n & sf & Hn & Hend & -> & Hlen & Hp & Hl).
    exists n, sf. split_and!; try done.
    + intros j sj Hj.
      destruct (flush_at_before_end n j 0 s sf sj Hn Hend Hj) as [Hle Hrest].
      destruct (flush_at_calls _ _ _ _ Hrest) as (Hp' & _).
      destruct (flush_at_calls_0 _ _ _ Hj) as (_ & Hl' & Hlen').
      split_and!; [done..|]. rewrite Hl'. do 2 f_equal.
      by apply prefix_take_eq.
    + intros fuel' Hfuel. by apply (flush_loop_enough n).
Qed.

(** On the chain, the pass started by the write to [x] also runs the effect
    that the first one enqueues by writing [y]. *)
Lemma flush_consumes_entries_appended_mid_pass_witness :
  flush 5 chain_armed = Some (Normal chain_flushed) ∧
  effectsForFlush chain_armed = [copy_x_to_y] ∧
  calls chain_flushed =
    calls chain_armed ++ [FlushCall copy_x_to_y; FlushCall copy_y_to_z] ∧
  ∃ n sf,
    flush_at n 0 chain_armed = Some sf ∧
    chain_flushed = set_effectsForFlush [] sf ∧
    length (effectsForFlush sf) = n ∧
    effectsForFlush chain_armed `prefix_of` effectsForFlush sf ∧
    calls chain_flushed =
      calls chain_armed ++ (FlushCall <$> effectsForFlush sf) ∧
    effectsForFlush chain_flushed = [] ∧
    (∀ j sj, flush_at j 0 chain_armed = Some sj →
       j ≤ n ∧
       effectsForFlush sj `prefix_of` effectsForFlush sf ∧
       calls sj =
         calls chain_armed ++ (FlushCall <$> take j (effectsForFlush sf))) ∧
    (∀ fuel', n < fuel' → flush fuel' chain_armed = Some (Normal chain_flushed)).
Proof.
  split; [vm_compute; reflexivity|].
  split; [vm_compute; reflexivity|].
  split; [vm_compute; reflexivity|].
  destruct (flush_consumes_entries_appended_mid_pass chain_armed)
    as (_ & _ & Hreturns).
  apply (Hreturns 5). vm_compute; reflexivity.
Defined.

(** ** The [queued] flag *)

Section Flag.
Implicit Types (s : system) (k : string) (v : value) (e : effect) (b : body).

Lemma useEffect_body e s :
  let s1 := state_of (exec (eff_body e)
              (record_call (InitialCall e) (set_currentEffect (Some e) s))) in
  useEffect e s = Normal (set_currentEffect None s1) ∨ useEffect e s = Threw s1.
Proof.
  unfold useEffect. simpl.
  destruct (exec (eff_body e) _); [by left|by right].
Qed.

Lemma useEffect_queued e s :
  queued s = true → queued (state_of (useEffect e s)) = true.
Proof.
  intros Hq.
  destruct (exec_frame (eff_body e)
    (record_call (InitialCall e) (set_currentEffect (Some e) s)))
    as (_ & _ & _ & _ & Ha).
  pose proof (arms_queued _ _ Ha Hq) as Hq'.
  destruct (useEffect_body e s) as [-> | ->]; done.
Qed.

Lemma run_step_queued st s :
  queued s = true → queued (state_of (run_step st s)) = true.
Proof.
  intros Hq. destruct st as [b|e|cb|cb]; simpl; try done.
  - destruct (exec_frame b s) as (_ & _ & _ & _ & Ha).
    by apply (arms_queued _ _ Ha).
  - by apply useEffect_queued.
Qed.

(** Once set, the flag stays set for the rest of the turn's code. *)
Lemma run_script_queued sc s :
  queued s = true → queued (state_of (run_script sc s)) = true.
Proof.
  induction sc as [|st sc IH] in s |- *; simpl; [done|]. intros Hq.
  pose proof (run_step_queued st s Hq) as Hq'.
  destruct (run_step st s) as [s1|s1]; simpl in *; [by apply IH|done].
Qed.
End Flag.

(** The flag is set while the two enqueued calls wait, and cleared between
    the first and the second of them: C3 as stated does not hold. *)
Lemma flag_is_false_during_flush :
  queued scn_both4 = true ∧
  ¬ (∀ n s', callback_at n scn_both4 = Some s' →
             is_Some (effectsForFlush s' !! n) → queued s' = true).
Proof.
  split; [vm_compute; reflexivity|]. intros H.
  specialize (H 1 (default scn_both4 (callback_at 1 scn_both4))).
  assert (queued (default scn_both4 (callback_at 1 scn_both4)) = true) as Hq.
  { apply H.
    - apply Some_default. vm_compute. reflexivity.
    - apply (bool_decide_eq_true_1 _). vm_compute. reflexivity. }
  vm_compute in Hq. discriminate.
Qed.

(** C3 (amended). A write to a key that has an entry sets the flag and, if it
    was not set, queues one flush callback; the flag then stays set through
    the rest of the turn's code.  The callback clears the flag before it
    runs the queued effects: at every iteration of its loop the flag is
    either still false with the microtask queue as the callback found it, or
    a write made by one of the effects has set it again and queued exactly
    one further callback.  The pending queue is emptied when the loop has
    exhausted it. *)
Theorem flag_is_cleared_before_the_flush_runs :
  (∀ k v s, is_Some (propertyKeyToEffectsMap s !! k) →
     queued (proxy_set k v s) = true ∧
     microtasks (proxy_set k v s) =
       (if queued s then microtasks s else microtasks s ++ [FlushTask])) ∧
  (∀ sc s, queued s = true → queued (state_of (run_script sc s)) = true) ∧
  (∀ n s s', callback_at n s = Some s' →
     (queued s' = false ∧ microtasks s' = microtasks s) ∨
     (queued s' = true ∧ microtasks s' = microtasks s ++ [FlushTask])) ∧
  (∀ fuel s s', flush_callback fuel s = Some (Normal s') →
     effectsForFlush s' = [] ∧
     ((queued s' = false ∧ microtasks s' = microtasks s) ∨
      (queued s' = true ∧ microtasks s' = microtasks s ++ [FlushTask]))).
Proof.
  split_and!.
  - intros k v s [effects Hk].
    destruct (onSet_tracked k v s effects Hk) as (_ & Hq & Hm).
    unfold proxy_set. by cbn [queued microtasks set_rawState].
  - apply run_script_queued.
  - intros n s s' Hn. unfold callback_at in Hn.
    destruct (flush_at_calls _ _ _ _ Hn) as (_ & _ & _ & _ & _ & Ha).
    destruct Ha as [[Hq Hm]|(_ & Hq & Hm)]; [left|right]; done.
  - intros fuel s s' Hf. unfold flush_callback in Hf.
    destruct (flush_returns_calls _ _ _ Hf) as (n & sf & Hn & _ & -> & _).
    split; [done|].
    destruct (flush_at_calls _ _ _ _ Hn) as (_ & _ & _ & _ & _ & Ha).
    destruct Ha as [[Hq Hm]|(_ & Hq & Hm)]; [left|right]; done.
Qed.

(** In the reference scenario: [state.foo = 2] arms the flush, and the
    callback that then runs returns with the queue empty. *)
Lemma flag_is_cleared_before_the_flush_runs_witness :
  (queued (proxy_set "foo" (VNumber 2) scn_registered) = true ∧
   microtasks (proxy_set "foo" (VNumber 2) scn_registered) =
     (if queued scn_registered then microtasks scn_registered
      else microtasks scn_registered ++ [FlushTask])) ∧
  queued (state_of (run_script [Exec (writes [("bar", VNumber 3)])] scn_foo2))
    = true ∧
  ((queued (set_queued false scn_both4) = false ∧
    microtasks (set_queued false scn_both4) = microtasks scn_both4) ∨
   (queued (set_queued false scn_both4) = true ∧
    microtasks (set_queued false scn_both4) =
      microtasks scn_both4 ++ [FlushTask])) ∧
  effectsForFlush (state_of (default (Normal scn_both4)
                                     (flush_callback 3 scn_both4))) = [].
Proof.
  destruct flag_is_cleared_before_the_flush_runs as (Hset & Hturn & Hat & Hend).
  split_and!.
  - apply Hset. apply (bool_decide_eq_true_1 _). vm_compute. reflexivity.
  - apply Hset. apply (bool_decide_eq_true_1 _). vm_compute. reflexivity.
  - apply Hturn. vm_compute. reflexivity.
  - apply (Hat 0). reflexivity.
  - apply (Hend 3 scn_both4).
    rewrite <- Normal_state_of; [|vm_compute; reflexivity].
    apply Some_default. vm_compute. reflexivity.
Defined.

(** ** [useEffect] and the active-effect slot *)

Section Slot.
Implicit Types (s : system) (k : string) (v : value) (e : effect) (b : body).


End Slot.



(** C5. Nothing is deduplicated.  With an effect in the slot, every read of
    a key appends that effect to the key's list, so reading twice appends it
    twice; a write appends the key's whole list, repetitions included, to
    the pending queue; and a flush pass that returns has made one call per
    entry of the queue, in order.  In the reference scenario the write of
    [foo] and [bar] in one turn enqueues the [sum] effect twice and the
    flush calls it twice. *)
Theorem nothing_is_deduplicated :
  (∀ k s e, currentEffect s = Some e →
     registered (proxy_get k s).2 k = registered s k ++ [e] ∧
     registered (state_of (exec (Get k (λ _, Get k (λ _, Ret))) s)) k =
       registered s k ++ [e; e]) ∧
  (∀ k v s,
     effectsForFlush (proxy_set k v s) = effectsForFlush s ++ registered s k) ∧
  (∀ fuel s s', flush fuel s = Some (Normal s') →
     ∃ final, effectsForFlush s `prefix_of` final ∧
              calls s' = calls s ++ (FlushCall <$> final)) ∧
  (effectsForFlush scn_both4 = [sumEffect; sumEffect] ∧
   calls scn_both4_flushed =
     calls scn_both4 ++ [FlushCall sumEffect; FlushCall sumEffect]).
Proof.
  split_and!.
  - intros k s e Hc. split; [by apply onGet_active_same|].
    cbn [exec proxy_get state_of].
    assert (currentEffect (onGet k s) = Some e) as Hc'.
    { by destruct (onGet_frame k s) as (-> & _). }
    by rewrite (onGet_active_same k (onGet k s) e Hc'),
      (onGet_active_same k s e Hc), <- app_assoc.
  - intros k v s. unfold proxy_set. cbn [effectsForFlush set_rawState].
    apply onSet_queue.
  - intros fuel s s' Hf.
    destruct (flush_returns_calls _ _ _ Hf) as (n & sf & _ & _ & _ & _ & Hp & Hl).
    by exists (effectsForFlush sf).
  - vm_compute. reflexivity.
  - vm_compute. reflexivity.
Qed.

(** Two reads of [a] by a registered effect, then a write of [a]. *)
Lemma nothing_is_deduplicated_witness :
  registered (state_of (exec (Get "a" (λ _, Get "a" (λ _, Ret))) after_failure))
             "a" = [failing; failing; failing] ∧
  ∃ final, effectsForFlush chain_armed `prefix_of` final ∧
           calls chain_flushed = calls chain_armed ++ (FlushCall <$> final).
Proof.
  destruct nothing_is_deduplicated as (Hread & _ & Hflush & _).
  split.
  - destruct (Hread "a" after_failure failing) as [_ ->];
      vm_compute; reflexivity.
  - apply (Hflush 5). vm_compute. reflexivity.
Defined.

(** C9. When [e()] throws inside [useEffect(e)], the exception leaves
    [useEffect] and line 88 is not reached: the slot still holds [e].  From
    then on every read of a key, by any code, appends [e] to that key's
    list; bodies and flush callbacks leave the slot as it is; only a later
    [useEffect] call changes it, to empty when its effect returns and to
    that effect when it throws too. *)
Theorem throwing_effect_stays_in_the_slot e s s1 :
  exec (eff_body e) (record_call (InitialCall e) (set_currentEffect (Some e) s))
    = Threw s1 →
  useEffect e s = Threw s1 ∧
  currentEffect s1 = Some e ∧
  (∀ k s2, currentEffect s2 = Some e →
     registered (proxy_get k s2).2 k = registered s2 k ++ [e] ∧
     currentEffect (proxy_get k s2).2 = Some e) ∧
  (∀ k cont, registered (state_of (exec (Get k cont) s1)) k ≠ registered s1 k) ∧
  (∀ b s2, currentEffect s2 = Some e →
     currentEffect (state_of (exec b s2)) = Some e) ∧
  (∀ fuel s2 r, currentEffect s2 = Some e → flush_callback fuel s2 = Some r →
     currentEffect (state_of r) = Some e) ∧
  (∀ e' s2 s3 k, useEffect e' s2 = Normal s3 →
     currentEffect s3 = None ∧
     registered (proxy_get k s3).2 k = registered s3 k) ∧
  (∀ e' s2 s3, useEffect e' s2 = Threw s3 → currentEffect s3 = Some e').
Proof.
  intros He.
  destruct (exec_frame (eff_body e)
    (record_call (InitialCall e) (set_currentEffect (Some e) s)))
    as (Hc & _).
  rewrite He in Hc. simpl in Hc.
  split_and!.
  - unfold useEffect. by rewrite He.
  - done.
  - intros k s2 Hs2. split; [by apply onGet_active_same|].
    simpl. by destruct (onGet_frame k s2) as (-> & _).
  - intros k cont Heq. cbn [exec proxy_get] in Heq.
    destruct (exec_active (cont (Reflect_get (onGet k s1) k)) (onGet k s1) e k)
      as [n Hn].
    { by destruct (onGet_frame k s1) as (-> & _). }
    rewrite Hn, (onGet_active_same k s1 e Hc), <- app_assoc in Heq.
    apply (f_equal length) in Heq. rewrite !length_app in Heq.
    simpl in Heq. lia.
  - intros b s2 Hs2. by destruct (exec_frame b s2) as (-> & _).
  - intros fuel s2 r Hs2 Hf. unfold flush_callback, flush in Hf.
    destruct (flush_loop_slot _ _ _ _ Hf) as [-> _]. done.
  - intros e' s2 s3 k. unfold useEffect.
    destruct (exec (eff_body e') _); [|done]. intros [= <-].
    split; [done|]. by apply onGet_idle.
  - intros e' s2 s3. unfold useEffect.
    destruct (exec_frame (eff_body e')
      (record_call (InitialCall e') (set_currentEffect (Some e') s2)))
      as (Hc' & _).
    destruct (exec (eff_body e') _); [done|]. by intros [= <-].
Qed.

(** The effect that reads [a] and throws, registered on a fresh system. *)
Lemma throwing_effect_stays_in_the_slot_witness :
  useEffect failing initial = Threw after_failure ∧
  currentEffect after_failure = Some failing ∧
  registered (proxy_get "b" after_failure).2 "b" = [failing].
Proof.
  destruct (throwing_effect_stays_in_the_slot failing initial after_failure)
    as (Hu & Hc & Hread & _).
  { vm_compute. reflexivity. }
  split_and!; [done..|].
  destruct (Hread "b" after_failure Hc) as [-> _]. vm_compute. reflexivity.
Defined.

(** C10. The write trap does not compare values.  A write to a key that has
    an entry appends the whole list to the pending queue and leaves the flag
    set, queuing a flush callback if none was pending, whatever the value;
    when the value written is the one already stored the store is unchanged
    and all of this still happens.  In the flush callback that follows,
    every entry then pending, those of the written key included, is called
    in its turn unless an earlier call of the pass threw: after [j]
    iterations the first [j] of them have been called, in order.  When the
    loop reaches the end of the queue after [n] iterations the callback
    returns for every fuel above [n], having called all of them. *)
Theorem write_trap_ignores_the_value k v s effects :
  propertyKeyToEffectsMap s !! k = Some effects →
  effectsForFlush (proxy_set k v s) = effectsForFlush s ++ effects ∧
  queued (proxy_set k v s) = true ∧
  microtasks (proxy_set k v s) =
    (if queued s then microtasks s else microtasks s ++ [FlushTask]) ∧
  calls (proxy_set k v s) = calls s ∧
  (rawState s !! k = Some v → rawState (proxy_set k v s) = rawState s) ∧
  (∀ fuel s', flush_callback fuel (proxy_set k v s) = Some (Normal s') →
     ∃ later, calls s' =
       calls s ++ (FlushCall <$> (effectsForFlush s ++ effects ++ later))) ∧
  (∀ j, j ≤ length (effectsForFlush s ++ effects) →
     (∃ sj, callback_at j (proxy_set k v s) = Some sj ∧
            calls sj =
              calls s ++
              (FlushCall <$> take j (effectsForFlush s ++ effects))) ∨
     (∃ i si e si',
        i < j ∧ callback_at i (proxy_set k v s) = Some si ∧
        (effectsForFlush s ++ effects) !! i = Some e ∧
        exec (eff_body e) (record_call (FlushCall e) si) = Threw si')) ∧
  (∀ n sf fuel,
     callback_at n (proxy_set k v s) = Some sf →
     effectsForFlush sf !! n = None → n < fuel →
     flush_callback fuel (proxy_set k v s)
       = Some (Normal (set_effectsForFlush [] sf)) ∧
     ∃ later, calls sf =
       calls s ++ (FlushCall <$> (effectsForFlush s ++ effects ++ later))).
Proof.
  intros Hk. destruct (onSet_tracked k v s effects Hk) as (Hq & Hf & Hm).
  destruct (onSet_frame k v s) as (_ & _ & Hr & _ & _ & Hl).
  assert (effectsForFlush (set_queued false (proxy_set k v s))
          = effectsForFlush s ++ effects) as Hq0.
  { unfold proxy_set. by cbn [effectsForFlush set_queued set_rawState]. }
  assert (calls (set_queued false (proxy_set k v s)) = calls s) as Hl0.
  { unfold proxy_set. by cbn [calls set_queued set_rawState]. }
  split_and!.
  - unfold proxy_set. by cbn [effectsForFlush set_rawState].
  - unfold proxy_set. by cbn [queued set_rawState].
  - unfold proxy_set. by cbn [microtasks set_rawState].
  - unfold proxy_set. by cbn [calls set_rawState].
  - intros Hv. unfold proxy_set. cbn [rawState set_rawState].
    rewrite Hr. by apply insert_id.
  - intros fuel s' Hflush. unfold flush_callback in Hflush.
    destruct (flush_returns_calls _ _ _ Hflush)
      as (n & sf & _ & _ & _ & _ & [later Hp] & Hcalls).
    exists later. rewrite Hcalls, Hl0, Hp, Hq0. by rewrite <- app_assoc.
  - intros j Hj. unfold callback_at.
    destruct (flush_at_progress j (set_queued false (proxy_set k v s)))
      as [[sj Hsj]|(i & si & e & si' & Hi & Hsi & He & Hthrew)].
    { by rewrite Hq0. }
    + left. exists sj. split; [done|].
      destruct (flush_at_calls_0 _ _ _ Hsj) as (Hp & Hcalls & _).
      rewrite Hcalls, Hl0. do 2 f_equal. rewrite Hq0 in Hp.
      symmetry. by apply prefix_take_eq.
    + right. exists i, si, e, si'. split_and!; [done..| |done].
      destruct (flush_at_calls_0 _ _ _ Hsi) as (Hp & _ & _).
      rewrite Hq0 in Hp.
      destruct (lookup_lt_is_Some_2 (effectsForFlush s ++ effects) i)
        as [e' He']; [lia|].
      pose proof (prefix_lookup_Some _ _ _ _ He' Hp) as He''. congruence.
  - intros n sf fuel Hn Hend Hfuel. unfold callback_at in Hn. split.
    + unfold flush_callback, flush. by apply (flush_loop_enough n).
    + destruct (flush_at_calls_0 _ _ _ Hn) as ([later Hp] & Hcalls & Hlen).
      exists later. rewrite Hcalls, Hl0, Hp, Hq0, <- app_assoc.
      rewrite take_ge; [done|]. apply lookup_ge_None in Hend.
      rewrite Hp, Hq0, <- app_assoc in Hend. done.
Qed.

(** Writing [foo = 1] again, once the demo's [sum] effect is registered:
    the flush callback runs the effect again. *)
Lemma write_trap_ignores_the_value_witness :
  rawState scn_registered !! "foo" = Some (VNumber 1) ∧
  effectsForFlush (proxy_set "foo" (VNumber 1) scn_registered) = [sumEffect] ∧
  queued (proxy_set "foo" (VNumber 1) scn_registered) = true ∧
  microtasks (proxy_set "foo" (VNumber 1) scn_registered) = [FlushTask] ∧
  rawState (proxy_set "foo" (VNumber 1) scn_registered) =
    rawState scn_registered ∧
  flush_callback 2 rewritten
    = Some (Normal (set_effectsForFlush [] rewritten_flushed)) ∧
  calls scn_registered = [InitialCall sumEffect] ∧
  calls rewritten_flushed = [InitialCall sumEffect; FlushCall sumEffect] ∧
  sum_now rewritten_flushed = VNumber 3.
Proof.
  assert (rawState scn_registered !! "foo" = Some (VNumber 1)) as Hv.
  { vm_compute. reflexivity. }
  destruct (write_trap_ignores_the_value "foo" (VNumber 1) scn_registered
              [sumEffect]) as (Hq & Hf & Hm & _ & Hr & _ & _ & Henough).
  { vm_compute. reflexivity. }
  destruct (Henough 1 rewritten_flushed 2) as [Hflush _].
  { apply Some_default. vm_compute. reflexivity. }
  { vm_compute. reflexivity. }
  { lia. }
  split_and!; [done|by rewrite Hq|done|by rewrite Hm|by apply Hr|exact Hflush
              |vm_compute; reflexivity..].
Defined.

Import DomRendering.

(** ** The stub expression on strings *)

Section Stubs.
Implicit Types (s ds rest : string) (f g : string → string) (k : nat).

Arguments match_stub : simpl never.

Lemma app_String c s1 s2 : String c s1 +:+ s2 = String c (s1 +:+ s2).
Proof. reflexivity. Qed.

Lemma app_empty s : "" +:+ s = s.
Proof. reflexivity. Qed.

(** Without a match anywhere the replacement is the identity. *)
Lemma replace_stubs_none f s :
  has_stub s = false → replace_stubs_from f 0 s = s.
Proof.
  induction s as [|c s IH]; [done|]. cbn [has_stub replace_stubs_from].
  destruct (match_stub (String c s)); [done|]. intros Hs. by rewrite IH.
Qed.

(** Passing over the rest of a match. *)
Lemma replace_stubs_skip f s rest :
  replace_stubs_from f (String.length s) (s +:+ rest) =
  replace_stubs_from f 0 rest.
Proof. induction s as [|c s IH]; [done|]. rewrite (app_String c s). simpl. exact IH. Qed.

Lemma stub_indices_skip s rest :
  stub_indices_from (String.length s) (s +:+ rest) = stub_indices_from 0 rest.
Proof. induction s as [|c s IH]; [done|]. rewrite (app_String c s). simpl. exact IH. Qed.

Lemma span_digits_app ds rest :
  all_digits ds = true →
  span_digits (ds +:+ "__" +:+ rest) = (ds, "__" +:+ rest).
Proof.
  induction ds as [|c ds IH]; [done|]. rewrite (app_String c ds). simpl.
  destruct (is_digit c); [|done]. simpl. intros Hds. by rewrite IH.
Qed.

Lemma strip_prefix_app p s : strip_prefix p (p +:+ s) = Some s.
Proof.
  induction p as [|a p IH]; [by destruct s|]. rewrite (app_String a p). simpl.
  by rewrite decide_True.
Qed.

(** A marker at the start of a string is a match capturing its digits. *)
Lemma match_stub_marker ds rest :
  all_digits ds = true → ds ≠ "" →
  match_stub ("__stub-" +:+ ds +:+ "__" +:+ rest) = Some ds.
Proof.
  intros Hds Hne. unfold match_stub.
  rewrite (strip_prefix_app "__stub-"). cbn [mbind option_bind].
  rewrite span_digits_app by done. rewrite decide_False by done.
  by rewrite (strip_prefix_app "__").
Qed.

Lemma length_app_string s1 s2 :
  String.length (s1 +:+ s2) = String.length s1 + String.length s2.
Proof.
  induction s1 as [|c s1 IH]; [done|]. rewrite (app_String c s1). simpl.
  by rewrite IH.
Qed.

Lemma app_string_assoc s1 s2 s3 : (s1 +:+ s2) +:+ s3 = s1 +:+ s2 +:+ s3.
Proof.
  induction s1 as [|c s1 IH]; [done|]. rewrite !(app_String c). by rewrite IH.
Qed.

Lemma replace_stubs_marker f ds rest :
  all_digits ds = true → ds ≠ "" →
  replace_stubs_from f 0 ("__stub-" +:+ ds +:+ "__" +:+ rest) =
  f ds +:+ replace_stubs_from f 0 rest.
Proof.
  intros Hds Hne. pose proof (match_stub_marker ds rest Hds Hne) as Hm.
  remember ("__stub-" +:+ ds +:+ "__" +:+ rest) as s eqn:Hs.
  rewrite !app_String, app_empty in Hs.
  destruct s as [|c s']; [done|].
  cbn [replace_stubs_from]. rewrite Hm. f_equal.
  injection Hs as -> ->. cbn [replace_stubs_from Nat.add].
  rewrite <- (replace_stubs_skip f (ds +:+ "__") rest).
  rewrite app_string_assoc, length_app_string. simpl.
  by rewrite Nat.add_comm.
Qed.

(** The replacement uses the callback only at the captures of the matches. *)
Lemma replace_stubs_ext f g k s :
  (∀ ds, ds ∈ stub_indices_from k s → f ds = g ds) →
  replace_stubs_from f k s = replace_stubs_from g k s.
Proof.
  induction s as [|c s IH] in k |- *; [done|].
  cbn [replace_stubs_from stub_indices_from]. destruct k as [|k].
  - destruct (match_stub (String c s)) as [ds|].
    + intros H. rewrite (H ds) by apply list_elem_of_here.
      f_equal. apply IH. intros ds' Hin. apply H. by apply list_elem_of_further.
    + intros H. f_equal. by apply IH.
  - apply IH.
Qed.
End Stubs.

(** ** The attribute loop *)

Section Attributes.
Implicit Types (attrs done todo : list (string * string)).
Implicit Types (expressions : list value).

Lemma setAttribute_middle name v v' done todo :
  name ∉ done.*1 →
  setAttribute name v' (done ++ (name, v) :: todo) = done ++ (name, v') :: todo.
Proof.
  induction done as [|[n w] done IH]; simpl.
  - intros _. by rewrite decide_True.
  - intros Hn. apply not_elem_of_cons in Hn as [Hne Hn].
    rewrite decide_False by done. by rewrite IH.
Qed.

Lemma substitute_attributes_from expressions done todo :
  NoDup (done ++ todo).*1 →
  substitute_attributes (length todo) (length done) expressions (done ++ todo)
  = done ++ ((λ nv, (nv.1, replaceStubs nv.2 expressions)) <$> todo).
Proof.
  induction todo as [|[n v] todo IH] in done |- *; [done|].
  intros Hnd. cbn [length substitute_attributes].
  rewrite list_lookup_middle by done.
  assert (n ∉ done.*1) as Hn.
  { rewrite fmap_app in Hnd. apply NoDup_app in Hnd as (_ & Hd & _).
    intros Hin. apply (Hd n Hin). simpl. apply list_elem_of_here. }
  rewrite setAttribute_middle by done.
  specialize (IH (done ++ [(n, replaceStubs v expressions)])).
  rewrite length_app, <- app_assoc in IH. simpl in IH.
  rewrite Nat.add_1_r in IH. rewrite IH.
  - by rewrite <- app_assoc.
  - by rewrite !fmap_app in Hnd |- *.
Qed.

(** On attributes with distinct names the loop replaces the stubs of every
    value and nothing else. *)
Lemma substitute_attributes_all expressions attrs :
  NoDup attrs.*1 →
  substitute_attributes (length attrs) 0 expressions attrs =
  (λ nv, (nv.1, replaceStubs nv.2 expressions)) <$> attrs.
Proof. intros Hnd. by apply (substitute_attributes_from expressions []). Qed.
End Attributes.

(** ** The cache and the objects *)

Section Cache.
Variable parse : string → list node.
Implicit Types (r : renderer) (tk : tokens) (expressions : list value).
Implicit Types (content : list node).

Lemma allocate_fresh content r :
((allocate content r).1 ∉ dom (objects r)) ∧
  tokensToTemplates (allocate content r).2 = tokensToTemplates r ∧
  objects (allocate content r).2 =
    <[(allocate content r).1 := content]> (objects r).
Proof. split; [apply is_fresh|done]. Qed.

Lemma firstElementChild_Some content i n :
  firstElementChild content = Some (i, n) →
  content !! i = Some n ∧ ∃ tag attrs cs, n = Element tag attrs cs.
Proof.
  induction content as [|c content IH] in i |- *; [done|].
  destruct c as [tag attrs cs|d|d]; simpl.
  - intros [= <- <-]. split; [done|]. by exists tag, attrs, cs.
  - destruct (firstElementChild content) as [[j m]|]; [|done].
    simpl. intros [= <- <-]. by apply IH.
  - destruct (firstElementChild content) as [[j m]|]; [|done].
    simpl. intros [= <- <-]. by apply IH.
Qed.

(** Cloning and substituting leaves the cache and every existing object as
    they are; the element returned is a child of a new object. *)
Lemma clone_and_substitute_frame t expressions r :
  let o := clone_and_substitute t expressions r in
  tokensToTemplates (renderer_of o) = tokensToTemplates r ∧
  (∀ x, x ∈ dom (objects r) → objects (renderer_of o) !! x = objects r !! x) ∧
  (∀ c i r', o = Returned c i r' →
     (c ∉ dom (objects r)) ∧
     ∃ element,
       firstElementChild (default [] (objects r !! t)) = Some (i, element) ∧
       objects r' !! c =
         Some (<[i := substitute expressions element]>
                 (default [] (objects r !! t))) ∧
       returned_element o = Some (substitute expressions element)).
Proof.
  unfold clone_and_substitute.
  set (content := default [] (objects r !! t)).
  destruct (allocate_fresh content r) as (Hfresh & Hcache & Hobj).
  destruct (allocate content r) as [c r1]. simpl in Hfresh, Hcache, Hobj.
  assert (∀ x, x ∈ dom (objects r) → c ≠ x) as Hne by (intros x Hx ->; done).
  destruct (firstElementChild content) as [[i element]|] eqn:Hfirst; simpl.
  - split_and!; [done| |].
    + intros x Hx. rewrite Hobj, !lookup_insert_ne by by apply Hne. done.
    + intros c' i' r' [= <- <- <-]. split; [done|]. exists element.
      simpl. rewrite !lookup_insert_eq. split_and!; [done..|]. simpl.
      apply firstElementChild_Some in Hfirst as [Hi _].
      rewrite list_lookup_insert_eq; [done|]. by eapply lookup_lt_Some.
  - split_and!; [done| |done].
    intros x Hx. rewrite Hobj, lookup_insert_ne by by apply Hne. done.
Qed.

(** What a cache miss stores. *)
Lemma compile_frame tk expressions r :
  let t := (compile parse tk expressions r).1 in
  let r1 := (compile parse tk expressions r).2 in
(t ∉ dom (objects r)) ∧
  tokensToTemplates r1 = <[tok_id tk := t]> (tokensToTemplates r) ∧
  objects r1 =
    <[t := parse (htmlStringWithStubs (tok_strings tk) expressions)]>
      (objects r).
Proof.
  unfold compile, transformHTMLStringToTemplate.
  destruct (allocate_fresh
    (parse (htmlStringWithStubs (tok_strings tk) expressions)) r)
    as (Hfresh & Hcache & Hobj).
  destruct (allocate _ r) as [t r1]. simpl in *. by rewrite Hcache.
Qed.

(** One call of [html]: entries of the cache and objects stay, and the
    renderer stays well formed. *)
Lemma html_frame tk expressions r :
  well_formed r →
  let r' := renderer_of (html parse tk expressions r) in
  well_formed r' ∧
  (∀ id t, tokensToTemplates r !! id = Some t →
           tokensToTemplates r' !! id = Some t) ∧
  (∀ x, x ∈ dom (objects r) → objects r' !! x = objects r !! x).
Proof.
  intros Hwf. unfold html.
  destruct (tokensToTemplates r !! tok_id tk) as [t|] eqn:Hhit.
  - destruct (clone_and_substitute_frame t expressions r) as (Hc & Ho & _).
    simpl. split_and!.
    + intros id t' Hid. rewrite Hc in Hid.
      destruct (Hwf _ _ Hid) as [content Hcontent].
      rewrite Ho; [by eexists|]. apply elem_of_dom. by eexists.
    + intros id t' Hid. by rewrite Hc.
    + done.
  - destruct (compile_frame tk expressions r) as (Hfresh & Hcache & Hobj).
    destruct (compile parse tk expressions r) as [t r1]. simpl in *.
    destruct (clone_and_substitute_frame t expressions r1) as (Hc & Ho & _).
    assert (∀ x, x ∈ dom (objects r) → x ∈ dom (objects r1)) as Hdom.
    { intros x Hx. rewrite Hobj. apply dom_insert. set_solver. }
    assert (∀ x, x ∈ dom (objects r) → objects r1 !! x = objects r !! x) as Hold.
    { intros x Hx. rewrite Hobj, lookup_insert_ne; [done|]. by intros ->. }
    split_and!.
    + intros id t' Hid. rewrite Hc, Hcache in Hid.
      rewrite Ho.
      * rewrite Hobj. destruct (decide (tok_id tk = id)) as [Heq|Hne].
        -- rewrite <- Heq, lookup_insert_eq in Hid. injection Hid as <-.
           rewrite lookup_insert_eq. by eexists.
        -- rewrite lookup_insert_ne in Hid by done.
           destruct (Hwf _ _ Hid) as [content Hcontent].
           rewrite lookup_insert_ne; [by eexists|].
           intros ->. apply Hfresh. apply elem_of_dom. by eexists.
      * destruct (decide (tok_id tk = id)) as [Heq|Hne].
        -- rewrite <- Heq, lookup_insert_eq in Hid. injection Hid as <-.
           rewrite Hobj. apply dom_insert. set_solver.
        -- rewrite lookup_insert_ne in Hid by done.
           apply Hdom, elem_of_dom, (Hwf _ _ Hid).
    + intros id t' Hid. rewrite Hc, Hcache.
      rewrite lookup_insert_ne; [done|]. intros <-. congruence.
    + intros x Hx. rewrite Ho by by apply Hdom. by apply Hold.
Qed.

Lemma html_calls_frame calls r :
  well_formed r →
  well_formed (html_calls parse calls r) ∧
  (∀ id t, tokensToTemplates r !! id = Some t →
           tokensToTemplates (html_calls parse calls r) !! id = Some t) ∧
  (∀ x, x ∈ dom (objects r) →
        objects (html_calls parse calls r) !! x = objects r !! x).
Proof.
  induction calls as [|[tk expressions] calls IH] in r |- *; [done|].
  intros Hwf. simpl.
  destruct (html_frame tk expressions r Hwf) as (Hwf' & Hc & Ho).
  destruct (IH _ Hwf') as (IHwf & IHc & IHo).
  split_and!; [done|..].
  - intros id t Hid. by apply IHc, Hc.
  - intros x Hx. rewrite IHo, Ho; [done..|].
    apply elem_of_dom. rewrite Ho by done. by apply elem_of_dom.
Qed.
End Cache.

(** ** Markers anywhere in a string *)

Section Anywhere.
Implicit Types (s p q ds rest t : string) (f : string → string).

Arguments match_stub : simpl never.

Lemma strip_prefix_Some p s rest :
  strip_prefix p s = Some rest → s = p +:+ rest.
Proof.
  induction p as [|a p IH] in s |- *; simpl.
  - by intros [= ->].
  - destruct s as [|b s]; [done|]. destruct (decide (a = b)) as [->|]; [|done].
    intros Hs. rewrite (app_String b p). f_equal. by apply IH.
Qed.

Lemma span_digits_Some s ds rest :
  span_digits s = (ds, rest) → s = ds +:+ rest ∧ all_digits ds = true.
Proof.
  induction s as [|c s IH] in ds |- *; simpl.
  - by intros [= <- <-].
  - destruct (is_digit c) eqn:Hc; [|by intros [= <- <-]].
    destruct (span_digits s) as [ds' rest']. intros [= <- <-].
    destruct (IH ds' eq_refl) as [-> Hds]. rewrite (app_String c ds').
    split; [done|]. simpl. by rewrite Hc.
Qed.

(** A match is the marker of its digits at the start of the string. *)
Lemma match_stub_Some s ds :
  match_stub s = Some ds →
  all_digits ds = true ∧ ds ≠ "" ∧
  ∃ rest, s = "__stub-" +:+ ds +:+ "__" +:+ rest.
Proof.
  unfold match_stub.
  destruct (strip_prefix "__stub-" s) as [r|] eqn:Hr; [|done].
  cbn [mbind option_bind].
  destruct (span_digits r) as [ds' r1] eqn:Hspan.
  destruct (decide (ds' = "")) as [|Hne]; [done|].
  destruct (strip_prefix "__" r1) as [r2|] eqn:Hr2; [|done].
  cbn [mbind option_bind]. intros [= <-].
  apply strip_prefix_Some in Hr, Hr2.
  destruct (span_digits_Some _ _ _ Hspan) as [Hr1 Hds].
  split_and!; [done..|]. exists r2. by rewrite Hr, Hr1, Hr2.
Qed.

(** Digits, then two underscores: a string that starts so, cut after two
    underscores of its own, still starts so. *)
Lemma digits_then_underscores q t ds rest :
  all_digits ds = true →
  q +:+ "__" +:+ t = ds +:+ "__" +:+ rest →
  ∃ rest', q +:+ "__" = ds +:+ "__" +:+ rest'.
Proof.
  induction ds as [|d ds IH] in q |- *; intros Hds Heq.
  - destruct q as [|c q]; [by exists ""|].
    rewrite (app_String c q) in Heq. injection Heq as -> Heq.
    destruct q as [|c' q]; [by exists "_"|].
    rewrite (app_String c' q) in Heq. injection Heq as -> _.
    by exists (q +:+ "__").
  - simpl in Hds. apply andb_prop in Hds as [Hd Hds].
    rewrite (app_String d ds) in Heq. destruct q as [|c q].
    + injection Heq as <- _. by vm_compute in Hd.
    + rewrite (app_String c q) in Heq. injection Heq as -> Heq.
      destruct (IH q Hds Heq) as [rest' Hrest']. exists rest'.
      by rewrite (app_String d q), (app_String d ds), Hrest'.
Qed.

(** A match at the start of a non-empty [p] followed by two underscores and
    more is already one of [p] followed by the two underscores. *)
Lemma match_stub_cut c p t ds :
  match_stub (String c p +:+ "__" +:+ t) = Some ds →
  match_stub (String c p +:+ "__") = Some ds.
Proof.
  intros Hm. destruct (match_stub_Some _ _ Hm) as (Hds & Hne & rest & Heq).
  assert (∃ rest', String c p +:+ "__" = "__stub-" +:+ ds +:+ "__" +:+ rest')
    as [rest' ->]; [|by apply match_stub_marker].
  rewrite !app_String, !app_empty in Heq. injection Heq as -> Heq.
  do 6 (destruct p as [|? p];
        [by rewrite app_empty in Heq|];
        rewrite (app_String _ p) in Heq; injection Heq as -> Heq).
  destruct (digits_then_underscores p t ds rest Hds Heq) as [rest' Hrest'].
  exists rest'. by rewrite !app_String, !app_empty, Hrest'.
Qed.

(** A literal that is clear of matches, up to the underscores that follow
    it, is copied as it is. *)
Lemma replace_stubs_literal f p t :
  has_stub (p +:+ "__") = false →
  replace_stubs_from f 0 (p +:+ "__" +:+ t) =
  p +:+ replace_stubs_from f 0 ("__" +:+ t).
Proof.
  induction p as [|c p IH]; [done|]. rewrite (app_String c p).
  cbn [has_stub]. rewrite <- (app_String c p).
  destruct (match_stub (String c p +:+ "__")) eqn:Hshort; [done|].
  intros Hclear. rewrite !(app_String c p). cbn [replace_stubs_from].
  rewrite <- (app_String c p).
  destruct (match_stub (String c p +:+ "__" +:+ t)) as [ds|] eqn:Hlong.
  - apply match_stub_cut in Hlong. congruence.
  - by rewrite IH.
Qed.

(** Every marker of a well split string is replaced, wherever it stands. *)
Lemma replace_stubs_with_stubs f parts last :
  well_split parts last →
  replace_stubs_from f 0 (with_stubs parts last) = with_values f parts last.
Proof.
  intros [Hparts Hlast].
  induction parts as [|[literal ds] parts IH]; simpl.
  - by apply replace_stubs_none.
  - destruct (Hparts literal ds) as (Hclear & Hds & Hne);
      [apply list_elem_of_here|].
    change ("__stub-" +:+ ds +:+ "__" +:+ with_stubs parts last)
      with ("__" +:+ "stub-" +:+ ds +:+ "__" +:+ with_stubs parts last).
    rewrite replace_stubs_literal by done.
    change ("__" +:+ "stub-" +:+ ds +:+ "__" +:+ with_stubs parts last)
      with ("__stub-" +:+ ds +:+ "__" +:+ with_stubs parts last).
    rewrite replace_stubs_marker by done. rewrite IH; [done|].
    intros l d Hin. apply Hparts. by apply list_elem_of_further.
Qed.
Lemma with_values_ext f g parts last :
  (∀ ds, f ds = g ds) → with_values f parts last = with_values g parts last.
Proof.
  intros Hfg. induction parts as [|[literal ds] parts IH]; simpl; [done|].
  by rewrite Hfg, IH.
Qed.
(** The first match of a string, when there is one, and what is before. *)
Lemma first_marker s :
  has_stub s = false ∨
  ∃ p ds rest,
    s = p +:+ "__stub-" +:+ ds +:+ "__" +:+ rest ∧
    has_stub (p +:+ "__") = false ∧ all_digits ds = true ∧ ds ≠ "".
Proof.
  induction s as [|c s IH]; [by left|].
  destruct (match_stub (String c s)) as [ds|] eqn:Hm.
  - right. destruct (match_stub_Some _ _ Hm) as (Hds & Hne & rest & Heq).
    exists "", ds, rest. by rewrite !app_empty.
  - destruct IH as [Hnone|(p & ds & rest & -> & Hp & Hds & Hne)].
    + left. cbn [has_stub]. by rewrite Hm.
    + right. exists (String c p), ds, rest. split_and!; [done| |done..].
      rewrite (app_String c p). cbn [has_stub]. rewrite Hp.
      destruct (match_stub (String c (p +:+ "__"))) as [ds'|] eqn:Hm'; [|done].
      destruct (match_stub_Some _ _ Hm') as (Hds' & Hne' & rest' & Heq).
      exfalso.
      assert (String c (p +:+ "__stub-" +:+ ds +:+ "__" +:+ rest) =
              "__stub-" +:+ ds' +:+ "__" +:+ rest' +:+ "stub-" +:+ ds +:+ "__"
              +:+ rest) as Hs.
      { change (String c (p +:+ "__stub-" +:+ ds +:+ "__" +:+ rest))
          with (String c p +:+ "__" +:+ "stub-" +:+ ds +:+ "__" +:+ rest).
        rewrite <- (app_string_assoc (String c p) "__").
        rewrite (app_String c p), Heq. by rewrite !app_string_assoc. }
      rewrite Hs, match_stub_marker in Hm by done. done.
Qed.

(** Every string is some literal parts with markers between them. *)
Lemma string_is_split s :
  ∃ parts last, well_split parts last ∧ s = with_stubs parts last.
Proof.
  remember (String.length s) as n eqn:Hn.
  revert s Hn. induction (lt_wf n) as [n _ IH]. intros s ->.
  destruct (first_marker s) as [Hnone|(p & ds & rest & -> & Hp & Hds & Hne)].
  - exists [], s. split; [|done]. split; [|done]. intros ?? Hin.
    by apply elem_of_nil in Hin.
  - destruct (IH (String.length rest)) with (s := rest)
      as (parts & last & [Hparts Hlast] & ->); [|done|].
    { rewrite !length_app_string. simpl. lia. }
    exists ((p, ds) :: parts), last. split; [|done]. split; [|done].
    intros literal ds' [[= -> ->]|Hin]%elem_of_cons; [done|].
    by apply Hparts.
Qed.
End Anywhere.

(** ** What [html] returns *)

Section Rendering.
Variable parse : string → list node.
Implicit Types (r : renderer) (tk : tokens) (expressions : list value).

Lemma well_formed_empty : well_formed empty_renderer.
Proof. intros id t H. simpl in H. by rewrite lookup_empty in H. Qed.

(** After a call the identity of [tk] is in the cache; on a miss the template
    is a new object holding the parsed markup. *)
Lemma html_cached tk expressions r :
  well_formed r →
  let r1 := renderer_of (html parse tk expressions r) in
  ∃ template,
    tokensToTemplates r1 !! tok_id tk = Some template ∧
    is_Some (objects r1 !! template) ∧
    (tokensToTemplates r !! tok_id tk = None →
       (template ∉ dom (objects r)) ∧
       objects r1 !! template =
         Some (parse (htmlStringWithStubs (tok_strings tk) expressions))).
Proof.
  intros Hwf. destruct (html_frame parse tk expressions r Hwf) as (Hwf' & Hkeep & _).
  simpl. destruct (tokensToTemplates r !! tok_id tk) as [t|] eqn:Hhit.
  - exists t. split_and!; [by apply Hkeep| |done].
    eapply Hwf'. by apply Hkeep.
  - revert Hwf'. unfold html. rewrite Hhit.
    destruct (compile_frame parse tk expressions r) as (Hfresh & Hcache & Hobj).
    destruct (compile parse tk expressions r) as [t r1]. simpl in *.
    destruct (clone_and_substitute_frame t expressions r1) as (Hc & Ho & _).
    intros Hwf'. exists t.
    assert (objects (renderer_of (clone_and_substitute t expressions r1)) !! t
            = Some (parse (htmlStringWithStubs (tok_strings tk) expressions)))
      as Ht.
    { rewrite Ho, Hobj; [by rewrite lookup_insert_eq|].
      rewrite Hobj. apply dom_insert. set_solver. }
    split_and!; [by rewrite Hc, Hcache, lookup_insert_eq|by eexists|done].
Qed.

(** The element returned is the first element of the cloned content with
    the stubs replaced, in a new object. *)
Lemma html_returned tk expressions r c i r' :
  html parse tk expressions r = Returned c i r' →
  (c ∉ dom (objects r)) ∧
  ∃ element,
    firstElementChild (template_content parse tk expressions r)
      = Some (i, element) ∧
    objects r' !! c =
      Some (<[i := substitute expressions element]>
              (template_content parse tk expressions r)) ∧
    returned_element (html parse tk expressions r)
      = Some (substitute expressions element).
Proof.
  unfold html, template_content.
  destruct (tokensToTemplates r !! tok_id tk) as [t|] eqn:Hhit.
  - intros Hr.
    destruct (clone_and_substitute_frame t expressions r) as (_ & _ & Hret).
    by apply Hret.
  - destruct (compile_frame parse tk expressions r) as (Hfresh & Hcache & Hobj).
    destruct (compile parse tk expressions r) as [t r1]. simpl in *.
    intros Hr.
    destruct (clone_and_substitute_frame t expressions r1) as (_ & _ & Hret).
    destruct (Hret _ _ _ Hr) as (Hc & element & Hfirst & Hobjc & Hel).
    rewrite Hobj, lookup_insert_eq in Hfirst, Hobjc. simpl in Hfirst, Hobjc.
    split.
    + intros Hin. apply Hc. rewrite Hobj. apply dom_insert.
      apply elem_of_union. by right.
    + by exists element.
Qed.

(** On an element whose attribute names are distinct. *)
Lemma substitute_Element expressions tag attrs children :
  NoDup attrs.*1 →
  substitute expressions (Element tag attrs children) =
  Element tag ((λ nv, (nv.1, replaceStubs nv.2 expressions)) <$> attrs)
    (text_children
       (replaceStubs (textContent (Element tag attrs children)) expressions)).
Proof.
  intros Hnd. unfold substitute. by rewrite substitute_attributes_all.
Qed.
End Rendering.

(** C6. A template is parsed at most once per identity of the token array.
    After a first call of [html] with [tk] the cache holds a template under
    the identity of [tk] (on a miss: a new object holding the parsed
    markup).  After any further calls, a call with tokens of the same
    identity finds that same template with its content unchanged, and does
    the same whatever the parser is: it only clones and substitutes.  The
    cache is left as it was, every object that existed keeps its content,
    and the element returned is the substituted first element of the
    template, in an object that did not exist before. *)
Theorem template_is_parsed_at_most_once
    parse tk expressions r calls tk' expressions' :
  well_formed r → tok_id tk' = tok_id tk →
  let r1 := renderer_of (html parse tk expressions r) in
  let rn := html_calls parse calls r1 in
  let later := html parse tk' expressions' rn in
  ∃ template,
    tokensToTemplates r1 !! tok_id tk = Some template ∧
    (tokensToTemplates r !! tok_id tk = None →
       (template ∉ dom (objects r)) ∧
       objects r1 !! template =
         Some (parse (htmlStringWithStubs (tok_strings tk) expressions))) ∧
    tokensToTemplates rn !! tok_id tk = Some template ∧
    objects rn !! template = objects r1 !! template ∧
    (∀ parse', html parse' tk' expressions' rn =
               clone_and_substitute template expressions' rn) ∧
    tokensToTemplates (renderer_of later) = tokensToTemplates rn ∧
    (∀ x, x ∈ dom (objects rn) →
          objects (renderer_of later) !! x = objects rn !! x) ∧
    (∀ c i r', later = Returned c i r' →
       (c ∉ dom (objects rn)) ∧
       ∃ element,
         firstElementChild (default [] (objects r1 !! template))
           = Some (i, element) ∧
         returned_element later = Some (substitute expressions' element)).
Proof.
  intros Hwf Hid r1 rn later.
  destruct (html_frame parse tk expressions r Hwf) as (Hwf1 & _).
  destruct (html_cached parse tk expressions r Hwf)
    as (template & Hcached & Hobj & Hmiss).
  fold r1 in Hwf1, Hcached, Hobj, Hmiss.
  destruct (html_calls_frame parse calls r1 Hwf1) as (Hwfn & Hkeep & Hobjs).
  fold rn in Hwfn, Hkeep, Hobjs.
  pose proof (Hkeep _ _ Hcached) as Hcachedn.
  assert (objects rn !! template = objects r1 !! template) as Hsame.
  { apply Hobjs. by apply elem_of_dom. }
  assert (∀ parse', html parse' tk' expressions' rn =
                    clone_and_substitute template expressions' rn) as Hhit.
  { intros parse'. unfold html. by rewrite Hid, Hcachedn. }
  destruct (clone_and_substitute_frame template expressions' rn)
    as (Hc & Ho & Hret).
  exists template. subst later. rewrite !Hhit.
  split_and!; try done.
  intros c i r' Hr. destruct (Hret _ _ _ Hr) as (Hfresh & element & Hfirst & _ & Hel).
  split; [done|]. exists element. by rewrite <- Hsame.
Qed.

(** Two renders from the call site of [render]: one template, two elements
    in two objects. *)
Lemma template_is_parsed_at_most_once_witness :
  returned_element (render page_parser (VString "red") (VString "Red")
                           empty_renderer)
    = Some (Element "div" [("class", "red")] [Text "Red"]) ∧
  render page_parser (VString "red") (VString "Red") empty_renderer
    = Returned 1 0 after_red ∧
  render page_parser (VString "blue") (VString "Blue") after_red
    = Returned 2 0 (renderer_of (render page_parser (VString "blue")
                                        (VString "Blue") after_red)) ∧
  objects (renderer_of (render page_parser (VString "blue") (VString "Blue")
                               after_red)) !! 1
    = objects after_red !! 1 ∧
  ∃ template,
    tokensToTemplates after_red !! 1%positive = Some template ∧
    (∀ parse', html parse' render_tokens [VString "blue"; VString "Blue"]
                    after_red =
               clone_and_substitute template [VString "blue"; VString "Blue"]
                    after_red) ∧
    returned_element (render page_parser (VString "blue") (VString "Blue")
                             after_red)
      = Some (Element "div" [("class", "blue")] [Text "Blue"]).
Proof.
  split; [vm_compute; reflexivity|].
  split; [vm_compute; reflexivity|].
  split; [vm_compute; reflexivity|].
  split; [vm_compute; reflexivity|].
  destruct (template_is_parsed_at_most_once page_parser render_tokens
              [VString "red"; VString "Red"] empty_renderer []
              render_tokens [VString "blue"; VString "Blue"]
              well_formed_empty eq_refl)
    as (template & Hcached & _ & _ & _ & Hhit & _).
  exists template. split_and!; [exact Hcached|exact Hhit|].
  vm_compute. reflexivity.
Defined.

(** ** Stubs without an expression, values without a stub *)

Section Unmatched.
Implicit Types (s ds : string) (expressions : list value).

Lemma array_get_out_of_range expressions ds :
  (∀ i, array_index ds = Some i → length expressions ≤ i) →
  array_get expressions ds = VUndefined.
Proof.
  intros Hout. unfold array_get. destruct (array_index ds) as [i|]; [|done].
  simpl. by rewrite lookup_ge_None_2 by by apply Hout.
Qed.

Lemma array_get_insert_ne expressions ds i v :
  array_index ds ≠ Some i →
  array_get (<[i := v]> expressions) ds = array_get expressions ds.
Proof.
  intros Hne. unfold array_get. destruct (array_index ds) as [j|]; [|done].
  simpl. rewrite list_lookup_insert_ne; [done|]. congruence.
Qed.
End Unmatched.

(** After the first render, a call from the same call site that passes a
    single expression: the marker [__stub-1__] of the template names no
    expression, and the text of the element returned is [undefined], not the
    marker.  C7 as stated does not hold. *)
Lemma unmatched_stub_is_not_left_literal :
  returned_element (html page_parser render_tokens [VString "blue"] after_red)
    = Some (Element "div" [("class", "blue")] [Text "undefined"]) ∧
  replaceStubs "__stub-1__" [VString "blue"] = "undefined" ∧
  replaceStubs "__stub-1__" [VString "blue"] ≠ "__stub-1__".
Proof.
  split_and!; [vm_compute; reflexivity..|].
  intros H. vm_compute in H. discriminate.
Qed.

(** C7 (amended). A stub marker whose digits name no expression (they are
    not the canonical spelling of an index below the number of expressions)
    is replaced by the text [undefined], at the start of a string and
    anywhere else: in a string written as literal parts and markers, as
    every string can be, every marker gives way to the string conversion of
    the expression it names, or to [undefined] when it names none, and the
    literal parts stay.  An expression whose index no stub marker of a
    string names is not used: replacing it by any other value gives the
    same string.  Every attribute value and the text of the element
    returned go through that replacement. *)
Theorem unmatched_stub_is_replaced_by_undefined :
  (∀ expressions ds rest,
     all_digits ds = true → ds ≠ "" →
     (∀ i, array_index ds = Some i → length expressions ≤ i) →
     replaceStubs ("__stub-" +:+ ds +:+ "__" +:+ rest) expressions =
       "undefined" +:+ replaceStubs rest expressions) ∧
  (∀ expressions s i v,
     (∀ ds, ds ∈ stub_indices_from 0 s → array_index ds ≠ Some i) →
     replaceStubs s (<[i := v]> expressions) = replaceStubs s expressions) ∧
  (∀ parse tk expressions r c i r',
     html parse tk expressions r = Returned c i r' →
     ∃ tag attrs children,
       firstElementChild (template_content parse tk expressions r)
         = Some (i, Element tag attrs children) ∧
       returned_element (html parse tk expressions r)
         = Some (substitute expressions (Element tag attrs children)) ∧
       (NoDup attrs.*1 →
        substitute expressions (Element tag attrs children) =
        Element tag ((λ nv, (nv.1, replaceStubs nv.2 expressions)) <$> attrs)
          (text_children
             (replaceStubs (textContent (Element tag attrs children))
                           expressions)))) ∧
  (∀ expressions parts last,
     well_split parts last → Forall printable expressions →
     replaceStubs (with_stubs parts last) expressions =
       with_values
         (λ ds, match array_index ds ≫= (expressions !!.) with
                | Some v => to_String v
                | None => "undefined"
                end) parts last) ∧
  (∀ s, ∃ parts last, well_split parts last ∧ s = with_stubs parts last).
Proof.
  split_and!.
  - intros expressions ds rest Hds Hne Hout. unfold replaceStubs.
    rewrite replace_stubs_marker by done.
    by rewrite array_get_out_of_range.
  - intros expressions s i v Hunused. unfold replaceStubs.
    apply replace_stubs_ext. intros ds Hin.
    by rewrite array_get_insert_ne by by apply Hunused.
  - intros parse tk expressions r c i r' Hr.
    destruct (html_returned parse _ _ _ _ _ _ Hr)
      as (_ & element & Hfirst & _ & Hel).
    destruct (firstElementChild_Some _ _ _ Hfirst)
      as (_ & tag & attrs & children & ->).
    exists tag, attrs, children. split_and!; [done..|].
    apply substitute_Element.
  - intros expressions parts last Hsplit _. unfold replaceStubs.
    rewrite replace_stubs_with_stubs by done.
    apply with_values_ext. intros ds. unfold array_get.
    by destruct (array_index ds ≫= (expressions !!.)).
  - apply string_is_split.
Qed.

(** The marker [__stub-7__] with two expressions; a string that names
    only expression 0 while expression 1 changes; and a string with the
    marker of expression 0 and an unmatched marker, both after text. *)
Lemma unmatched_stub_is_replaced_by_undefined_witness :
  replaceStubs ("__stub-" +:+ "7" +:+ "__" +:+ "!") [VString "a"; VString "b"]
    = "undefined" +:+ replaceStubs "!" [VString "a"; VString "b"] ∧
  replaceStubs "x__stub-0__y" (<[1 := VNumber 5]> [VString "a"; VString "b"])
    = replaceStubs "x__stub-0__y" [VString "a"; VString "b"] ∧
  with_stubs [("x", "0"); (" y ", "7")] "!" = "x__stub-0__ y __stub-7__!" ∧
  replaceStubs (with_stubs [("x", "0"); (" y ", "7")] "!") [VString "a"]
    = "xa y undefined!" ∧
  ∃ tag attrs children,
    firstElementChild
      (template_content page_parser render_tokens [VString "blue"] after_red)
      = Some (0, Element tag attrs children) ∧
    returned_element (html page_parser render_tokens [VString "blue"] after_red)
      = Some (substitute [VString "blue"] (Element tag attrs children)) ∧
    (NoDup attrs.*1 →
     substitute [VString "blue"] (Element tag attrs children) =
     Element tag
       ((λ nv, (nv.1, replaceStubs nv.2 [VString "blue"])) <$> attrs)
       (text_children
          (replaceStubs (textContent (Element tag attrs children))
                        [VString "blue"]))).
Proof.
  destruct unmatched_stub_is_replaced_by_undefined
    as (Hmarker & Hunused & Hhtml & Hanywhere & _).
  split_and!.
  - apply Hmarker; [reflexivity|discriminate|].
    intros i Hi. vm_compute in Hi. injection Hi as <-. simpl. lia.
  - apply Hunused. intros ds Hin. vm_compute in Hin.
    apply list_elem_of_singleton in Hin as ->. vm_compute. discriminate.
  - reflexivity.
  - rewrite (Hanywhere [VString "a"] [("x", "0"); (" y ", "7")] "!").
    + vm_compute. reflexivity.
    + split; [|reflexivity]. intros literal ds Hin.
      apply elem_of_cons in Hin as [[= -> ->]|Hin];
        [by split_and!; [vm_compute|vm_compute|discriminate]|].
      apply list_elem_of_singleton in Hin as [= -> ->].
      by split_and!; [vm_compute|vm_compute|discriminate].
    + by repeat constructor.
  - apply (Hhtml page_parser render_tokens [VString "blue"] after_red 2 0
             (renderer_of (html page_parser render_tokens [VString "blue"]
                                after_red))).
    vm_compute. reflexivity.
Defined.

(** ** What the substitution leaves alone *)

Section Untouched.
Implicit Types (s : string) (expressions : list value).

Lemma app_string_empty_r s : s +:+ "" = s.
Proof.
  induction s as [|c s IH]; [done|]. rewrite (app_String c s). by rewrite IH.
Qed.


End Untouched.




(** * Further properties of the reactive store *)

Section PlainObject.
Implicit Types (s : system) (k : string) (v : value) (b : body).

Lemma proxy_set_store k v s :
  rawState (proxy_set k v s) = <[k := v]> (rawState s) ∧
  console (proxy_set k v s) = console s.
Proof.
  destruct (onSet_frame k v s) as (_ & _ & Hr & _ & Hc & _).
  unfold proxy_set. cbn [rawState console set_rawState]. by rewrite Hr, Hc.
Qed.

Lemma proxy_get_store k s :
  (proxy_get k s).1 = default VUndefined (rawState s !! k) ∧
  rawState (proxy_get k s).2 = rawState s ∧
  console (proxy_get k s).2 = console s.
Proof.
  destruct (onGet_frame k s) as (_ & _ & _ & Hr & _ & _ & Hc & _).
  unfold proxy_get, Reflect_get. simpl. by rewrite Hr, Hc.
Qed.
End PlainObject.

(** X1. The proxy is transparent for the code that uses [state]: whether a
    body returns or throws, the store it leaves and what it prints are what
    the same body does on a plain object holding the same properties; the
    dependency map, the slot, the queue and the flag have no influence on
    the values read. *)
Theorem proxy_is_transparent b s :
  (is_Normal (exec b s), rawState (state_of (exec b s)),
   console (state_of (exec b s)))
  = plain_exec b (rawState s) (console s).
Proof.
  induction b as [| |k cont IH|k v cont IH|v cont IH] in s |- *; simpl.
  - done.
  - done.
  - destruct (proxy_get_store k s) as (Hv & Hr & Hc). simpl in Hv, Hr, Hc.
    rewrite IH. unfold Reflect_get. by rewrite Hr, Hc.
  - destruct (proxy_set_store k v s) as (Hr & Hc). by rewrite IH, Hr, Hc.
  - by rewrite IH.
Qed.

(** X2. Reading back, for the keys that the store holds as its own, that
    is every key but the names inherited from [Object.prototype]
    ([toString], [constructor], [__proto__] and the like): a read of a key
    right after a write of it gives the value written, a read of another
    such key gives what it gave before the write, and a key that was never
    written reads as [undefined]. *)
Theorem read_gives_the_last_value_written k v s :
  k ∉ Object_prototype_names →
  (proxy_get k (proxy_set k v s)).1 = v ∧
  (∀ k', k' ∉ Object_prototype_names → k' ≠ k →
     (proxy_get k' (proxy_set k v s)).1 = (proxy_get k' s).1) ∧
  (rawState s !! k = None → (proxy_get k s).1 = VUndefined).
Proof.
  intros _.
  destruct (proxy_set_store k v s) as (Hr & _).
  split_and!.
  - destruct (proxy_get_store k (proxy_set k v s)) as (-> & _).
    by rewrite Hr, lookup_insert_eq.
  - intros k' _ Hne.
    destruct (proxy_get_store k' (proxy_set k v s)) as (-> & _).
    destruct (proxy_get_store k' s) as (-> & _).
    by rewrite Hr, lookup_insert_ne.
  - intros Hk. destruct (proxy_get_store k s) as (-> & _). by rewrite Hk.
Qed.

(** The demo's store is empty before line 243; once the effect is
    registered it holds [foo], [bar] and [sum]. *)
Lemma read_gives_the_last_value_written_witness :
  (proxy_get "foo" (proxy_set "foo" (VNumber 1) initial)).1 = VNumber 1 ∧
  (proxy_get "foo" initial).1 = VUndefined ∧
  (proxy_get "foo" (proxy_set "foo" (VNumber 7) scn_registered)).1
    = VNumber 7 ∧
  (proxy_get "bar" (proxy_set "foo" (VNumber 7) scn_registered)).1
    = (proxy_get "bar" scn_registered).1 ∧
  (proxy_get "bar" scn_registered).1 = VNumber 2.
Proof.
  assert (Hfoo : "foo" ∉ Object_prototype_names)
    by (apply (bool_decide_unpack _); vm_compute; exact I).
  assert (Hbar : "bar" ∉ Object_prototype_names)
    by (apply (bool_decide_unpack _); vm_compute; exact I).
  destruct (read_gives_the_last_value_written "foo" (VNumber 1) initial Hfoo)
    as (Hsame & _ & Hmissing).
  destruct (read_gives_the_last_value_written "foo" (VNumber 7)
              scn_registered Hfoo) as (Hsame' & Hother & _).
  split_and!; [exact Hsame| |exact Hsame'| |reflexivity].
  - apply Hmissing. reflexivity.
  - apply Hother; [exact Hbar|discriminate].
Defined.



(** ** Nothing leaves the dependency map *)

Section MapGrows.
Implicit Types (s : system) (k : string) (v : value) (b : body) (e : effect).

Lemma map_grows_refl s : map_grows s s.
Proof. by intros k. Qed.

Lemma map_grows_trans s1 s2 s3 :
  map_grows s1 s2 → map_grows s2 s3 → map_grows s1 s3.
Proof.
  intros H12 H23 k. destruct (H12 k) as [Ha Hb], (H23 k) as [Hc Hd].
  split; [auto|by etrans].
Qed.

(** Only the map matters. *)
Lemma map_grows_same_map s s' :
  propertyKeyToEffectsMap s' = propertyKeyToEffectsMap s → map_grows s s'.
Proof. intros Hm k. unfold registered. by rewrite Hm. Qed.

Lemma onGet_grows k s : map_grows s (onGet k s).
Proof.
  intros k'. split.
  - intros Hsome. destruct (decide (k = k')) as [<-|Hne]; [apply onGet_entry|].
    unfold onGet.
    destruct (propertyKeyToEffectsMap s !! k) eqn:Hk;
      destruct (currentEffect s) eqn:Hc; simpl; rewrite ?Hc; simpl;
      rewrite ?lookup_insert_ne by done; done.
  - destruct (currentEffect s) as [e|] eqn:Hc.
    + destruct (decide (k = k')) as [<-|Hne].
      * rewrite (onGet_active_same k s e Hc). by apply prefix_app_r.
      * by rewrite (onGet_active_other k k' s e Hc Hne).
    + by rewrite onGet_idle.
Qed.

Lemma exec_grows b s : map_grows s (state_of (exec b s)).
Proof.
  induction b as [| |k cont IH|k v cont IH|v cont IH] in s |- *; simpl;
    try apply map_grows_refl.
  - eapply map_grows_trans; [apply onGet_grows|apply IH].
  - eapply map_grows_trans; [|apply IH]. apply map_grows_same_map.
    unfold proxy_set. cbn [propertyKeyToEffectsMap set_rawState].
    by destruct (onSet_frame k v s) as (-> & _).
  - eapply map_grows_trans; [|apply IH]. by apply map_grows_same_map.
Qed.

Lemma useEffect_grows e s : map_grows s (state_of (useEffect e s)).
Proof.
  pose proof (exec_grows (eff_body e)
    (record_call (InitialCall e) (set_currentEffect (Some e) s))) as Hg.
  unfold useEffect. destruct (exec (eff_body e) _) as [s2|s2]; simpl in *.
  - eapply map_grows_trans; [|by apply (map_grows_same_map s2)].
    eapply map_grows_trans; [|exact Hg]. by apply map_grows_same_map.
  - eapply map_grows_trans; [|exact Hg]. by apply map_grows_same_map.
Qed.

Lemma run_script_grows sc s : map_grows s (state_of (run_script sc s)).
Proof.
  induction sc as [|st sc IH] in s |- *; simpl; [apply map_grows_refl|].
  assert (map_grows s (state_of (run_step st s))) as Hst.
  { destruct st as [b|e|cb|cb]; simpl.
    - apply exec_grows.
    - apply useEffect_grows.
    - by apply map_grows_same_map.
    - by apply map_grows_same_map. }
  destruct (run_step st s) as [s1|s1]; simpl in *; [|done].
  eapply map_grows_trans; [exact Hst|apply IH].
Qed.

Lemma flush_loop_grows fuel i s r :
  flush_loop fuel i s = Some r → map_grows s (state_of r).
Proof.
  induction fuel as [|fuel IH] in i, s |- *; simpl; [done|].
  destruct (effectsForFlush s !! i) as [e|].
  - pose proof (exec_grows (eff_body e) (record_call (FlushCall e) s)) as Hg.
    destruct (exec (eff_body e) (record_call (FlushCall e) s)) as [s1|s1].
    + intros Hf. simpl in Hg.
      eapply map_grows_trans; [|apply (IH _ _ Hf)].
      eapply map_grows_trans; [|exact Hg]. by apply map_grows_same_map.
    + intros [= <-]. simpl in *.
      eapply map_grows_trans; [|exact Hg]. by apply map_grows_same_map.
  - intros [= <-]. by apply map_grows_same_map.
Qed.

Lemma drain_grows n fuel s s' : drain n fuel s = Some s' → map_grows s s'.
Proof.
  induction n as [|n IH] in s |- *; simpl; [done|].
  destruct (microtasks s) as [|t rest]; [intros [= <-]; apply map_grows_refl|].
  destruct (run_microtask fuel t (set_microtasks rest s)) as [r|] eqn:Hr;
    [|done].
  intros Hd. eapply map_grows_trans; [|apply (IH _ Hd)].
  destruct t as [|cb]; simpl in Hr.
  - unfold flush_callback, flush in Hr.
    eapply map_grows_trans; [|apply (flush_loop_grows _ _ _ _ Hr)].
    by apply map_grows_same_map.
  - injection Hr as <-.
    eapply map_grows_trans; [|apply run_script_grows].
    by apply map_grows_same_map.
Qed.

Lemma turn_grows n fuel sc s s' : turn n fuel sc s = Some s' → map_grows s s'.
Proof.
  unfold turn. intros Hd.
  eapply map_grows_trans; [apply run_script_grows|by eapply drain_grows].
Qed.

Lemma run_timers_grows m n fuel s s' :
  run_timers m n fuel s = Some s' → map_grows s s'.
Proof.
  induction m as [|m IH] in s |- *; simpl; [done|].
  destruct (timers s) as [|cb rest]; [intros [= <-]; apply map_grows_refl|].
  destruct (turn n fuel cb (set_timers rest s)) as [s1|] eqn:Ht; [|done].
  intros Hr. eapply map_grows_trans; [|apply (IH _ Hr)].
  eapply map_grows_trans; [|by eapply turn_grows].
  by apply map_grows_same_map.
Qed.
End MapGrows.

(** X4. Nothing ever leaves the dependency map.  A read creates the entry of
    its key, also with the slot empty, and from then on the entry stays;
    through any body, any [useEffect] call, any flush callback however it
    ends, and any run of a program through the event loop, every list of
    the map is extended at its end at most: an effect once registered under
    a key stays registered there. *)
Theorem registrations_are_never_removed :
  (∀ k s, is_Some (propertyKeyToEffectsMap (proxy_get k s).2 !! k)) ∧
  (∀ b s, map_grows s (state_of (exec b s))) ∧
  (∀ e s, map_grows s (state_of (useEffect e s))) ∧
  (∀ fuel s r, flush_callback fuel s = Some r → map_grows s (state_of r)) ∧
  (∀ m n fuel main s s',
     run_program m n fuel main s = Some s' → map_grows s s').
Proof.
  split_and!.
  - intros k s. apply onGet_entry.
  - apply exec_grows.
  - apply useEffect_grows.
  - intros fuel s r Hf. unfold flush_callback, flush in Hf.
    eapply map_grows_trans; [|apply (flush_loop_grows _ _ _ _ Hf)].
    by apply map_grows_same_map.
  - intros m n fuel main s s'. unfold run_program.
    destruct (turn n fuel main s) as [s1|] eqn:Ht; [|done].
    intros Hr. eapply map_grows_trans; [by eapply turn_grows|].
    by eapply run_timers_grows.
Qed.

(** The demo from line 250 on: the effect is registered under [foo] and
    [bar] and stays there to the end of the program, while the reads of
    [sum] add an entry.  A second [useEffect] call of the same effect
    registers it once more, and a read outside any effect creates the entry
    of its key. *)
Lemma registrations_are_never_removed_witness :
  registered scn_registered "foo" = [sumEffect] ∧
  propertyKeyToEffectsMap scn_registered !! "sum" = None ∧
  map_grows scn_registered demo_end ∧
  registered demo_end "foo" = [sumEffect] ∧
  propertyKeyToEffectsMap demo_end !! "sum" = Some [] ∧
  map_grows scn_registered (state_of (useEffect sumEffect scn_registered)) ∧
  registered (state_of (useEffect sumEffect scn_registered)) "foo"
    = [sumEffect; sumEffect] ∧
  is_Some (propertyKeyToEffectsMap (proxy_get "text" scn_registered).2
             !! "text").
Proof.
  destruct registrations_are_never_removed
    as (Hread & _ & Huse & _ & Hprogram).
  split_and!.
  - reflexivity.
  - reflexivity.
  - apply (Hprogram 3 8 4 demo_rest).
    apply Some_default. vm_compute. reflexivity.
  - vm_compute. reflexivity.
  - vm_compute. reflexivity.
  - apply Huse.
  - vm_compute. reflexivity.
  - apply Hread.
Defined.

(** ** One flush callback at most *)

Section OneCallback.
Implicit Types (s : system) (e : effect) (b : body).

Lemma pending_flushes_app l1 l2 :
  pending_flushes (l1 ++ l2) = pending_flushes l1 + pending_flushes l2.
Proof.
  induction l1 as [|[|cb] l1 IH]; simpl; [done|by rewrite IH|done].
Qed.

Lemma arms_keeps_match s s' :
  arms s s' → flag_matches_queue s → flag_matches_queue s'.
Proof.
  unfold flag_matches_queue.
  intros [[-> ->]|(Hq & -> & ->)] Hinv; [done|].
  rewrite pending_flushes_app, Hinv, Hq. done.
Qed.

Lemma useEffect_arms e s : arms s (state_of (useEffect e s)).
Proof.
  destruct (exec_frame (eff_body e)
    (record_call (InitialCall e) (set_currentEffect (Some e) s)))
    as (_ & _ & _ & _ & Ha).
  unfold useEffect. by destruct (exec (eff_body e) _).
Qed.

Lemma run_script_keeps_match sc s :
  flag_matches_queue s → flag_matches_queue (state_of (run_script sc s)).
Proof.
  induction sc as [|st sc IH] in s |- *; simpl; [done|]. intros Hinv.
  assert (flag_matches_queue (state_of (run_step st s))) as Hst.
  { destruct st as [b|e|cb|cb]; simpl.
    - destruct (exec_frame b s) as (_ & _ & _ & _ & Ha).
      by apply (arms_keeps_match s).
    - by apply (arms_keeps_match s _ (useEffect_arms e s)).
    - unfold flag_matches_queue in *. cbn [microtasks queued set_microtasks].
      rewrite pending_flushes_app. simpl. lia.
    - done. }
  destruct (run_step st s) as [s1|s1]; simpl in *; [by apply IH|done].
Qed.

Lemma flush_loop_arms fuel i s r :
  flush_loop fuel i s = Some r → arms s (state_of r).
Proof.
  induction fuel as [|fuel IH] in i, s |- *; simpl; [done|].
  destruct (effectsForFlush s !! i) as [e|].
  - destruct (iteration_frame e s) as (_ & _ & _ & _ & Ha).
    destruct (exec (eff_body e) (record_call (FlushCall e) s)) as [s1|s1].
    + intros Hf. eapply arms_trans; [exact Ha|apply (IH _ _ Hf)].
    + by intros [= <-].
  - intros [= <-]. by left.
Qed.

Lemma drain_keeps_match n fuel s s' :
  flag_matches_queue s → drain n fuel s = Some s' →
  flag_matches_queue s' ∧ microtasks s' = [].
Proof.
  induction n as [|n IH] in s |- *; simpl; [done|]. intros Hinv.
  destruct (microtasks s) as [|t rest] eqn:Hm; [by intros [= <-]|].
  destruct (run_microtask fuel t (set_microtasks rest s)) as [r|] eqn:Hr;
    [|done].
  intros Hd. apply (IH (state_of r)); [|done].
  unfold flag_matches_queue in Hinv. rewrite Hm in Hinv.
  destruct t as [|cb]; simpl in Hr, Hinv.
  - unfold flush_callback, flush in Hr.
    apply (arms_keeps_match _ _ (flush_loop_arms _ _ _ _ Hr)).
    unfold flag_matches_queue. cbn [microtasks queued set_microtasks set_queued].
    destruct (queued s); lia.
  - injection Hr as <-. by apply run_script_keeps_match.
Qed.

Lemma run_timers_keeps_match m n fuel s s' :
  flag_matches_queue s → microtasks s = [] →
  run_timers m n fuel s = Some s' →
  flag_matches_queue s' ∧ microtasks s' = [].
Proof.
  induction m as [|m IH] in s |- *; simpl; [done|]. intros Hinv Hm.
  destruct (timers s) as [|cb rest]; [by intros [= <-]|].
  destruct (turn n fuel cb (set_timers rest s)) as [s1|] eqn:Ht; [|done].
  unfold turn in Ht.
  destruct (drain_keeps_match _ _ _ _
              (run_script_keeps_match cb (set_timers rest s) Hinv) Ht)
    as [Hinv1 Hm1].
  by apply IH.
Qed.
End OneCallback.

(** X5. At most one flush callback waits in the microtask queue, and the
    flag is set exactly when one does.  This holds on a fresh system and is
    kept by the code of a turn, whether it returns or throws, by the
    microtask checkpoint and by a whole program run through the event loop;
    when the loop is done no callback is left and the flag is cleared. *)
Theorem at_most_one_flush_callback_is_pending :
  flag_matches_queue initial ∧
  (∀ sc s, flag_matches_queue s →
           flag_matches_queue (state_of (run_script sc s))) ∧
  (∀ n fuel s s', flag_matches_queue s → drain n fuel s = Some s' →
                  flag_matches_queue s' ∧ microtasks s' = [] ∧
                  queued s' = false) ∧
  (∀ m n fuel main s s', flag_matches_queue s →
     run_program m n fuel main s = Some s' →
     flag_matches_queue s' ∧ microtasks s' = [] ∧ queued s' = false).
Proof.
  assert (∀ s, flag_matches_queue s → microtasks s = [] → queued s = false)
    as Hidle.
  { unfold flag_matches_queue. intros s Hinv Hm. rewrite Hm in Hinv.
    by destruct (queued s). }
  split_and!.
  - done.
  - apply run_script_keeps_match.
  - intros n fuel s s' Hinv Hd.
    destruct (drain_keeps_match _ _ _ _ Hinv Hd) as [Hinv' Hm].
    split_and!; [done..|by apply Hidle].
  - intros m n fuel main s s' Hinv. unfold run_program.
    destruct (turn n fuel main s) as [s1|] eqn:Ht; [|done]. unfold turn in Ht.
    destruct (drain_keeps_match _ _ _ _
                (run_script_keeps_match main s Hinv) Ht) as [Hinv1 Hm1].
    intros Hr.
    destruct (run_timers_keeps_match _ _ _ _ _ Hinv1 Hm1 Hr) as [Hinv' Hm].
    split_and!; [done..|by apply Hidle].
Qed.

(** The demo program from a fresh system. *)
Lemma at_most_one_flush_callback_is_pending_witness :
  queued (default initial (run_program 3 8 4 reactiveSystemDemo initial))
    = false ∧
  flag_matches_queue
    (state_of (run_script [Exec (writes [("foo", VNumber 2)])] scn_registered)).
Proof.
  destruct at_most_one_flush_callback_is_pending
    as (Hinit & Hturn & _ & Hprogram).
  split.
  - apply (Hprogram 3 8 4 reactiveSystemDemo initial); [exact Hinit|].
    apply Some_default. vm_compute. reflexivity.
  - apply Hturn. vm_compute. reflexivity.
Defined.

(** ** A flush in which an effect throws *)

Section ThrowingFlush.
Implicit Types (s : system) (e : effect).

Lemma flush_loop_throws fuel i s s' :
  flush_loop fuel i s = Some (Threw s') →
  ∃ n sf e, flush_at n i s = Some sf ∧
            effectsForFlush sf !! (i + n) = Some e ∧
            exec (eff_body e) (record_call (FlushCall e) sf) = Threw s'.
Proof.
  induction fuel as [|fuel IH] in i, s |- *; simpl; [done|].
  destruct (effectsForFlush s !! i) as [e|] eqn:Hi; [|done].
  destruct (exec (eff_body e) (record_call (FlushCall e) s)) as [s1|s1]
    eqn:He.
  - intros Hf. destruct (IH _ _ Hf) as (n & sf & e' & Hn & Hq & He').
    exists (S n), sf, e'. simpl. rewrite Hi, He.
    split_and!; [done| |done]. by rewrite Nat.add_succ_r.
  - intros [= <-]. exists 0, s, e. by rewrite Nat.add_0_r.
Qed.
End ThrowingFlush.

(** X6. When an effect throws during a flush the pending queue is not
    emptied.  The pass has called, in order, the entries up to and
    including the one that threw; none after it; and the queue it leaves
    still holds all of them, those already called included, so that the
    next pass starts over with the first entry. *)
Theorem throwing_flush_keeps_the_queue fuel s s' :
  flush fuel s = Some (Threw s') →
  ∃ n e,
    effectsForFlush s' !! n = Some e ∧
    (∃ sf, flush_at n 0 s = Some sf ∧
           exec (eff_body e) (record_call (FlushCall e) sf) = Threw s') ∧
    effectsForFlush s `prefix_of` effectsForFlush s' ∧
    calls s' = calls s ++ (FlushCall <$> take (S n) (effectsForFlush s')) ∧
    (∀ e0, effectsForFlush s !! 0 = Some e0 →
           effectsForFlush s' !! 0 = Some e0).
Proof.
  intros Hf. destruct (flush_loop_throws _ _ _ _ Hf) as (n & sf & e & Hn & Hq & He).
  simpl in Hq.
  destruct (flush_at_calls_0 _ _ _ Hn) as (Hp & Hl & Hlen).
  destruct (iteration_frame e sf) as (Hl' & _ & _ & Hp' & _).
  rewrite He in Hl', Hp'. simpl in Hl', Hp'.
  assert (effectsForFlush s' !! n = Some e) as Hq'.
  { by eapply prefix_lookup_Some. }
  assert (effectsForFlush s `prefix_of` effectsForFlush s') as Hpp by by etrans.
  exists n, e. split_and!; [done|by exists sf|done| |].
  - rewrite Hl', Hl, (take_S_r _ _ _ Hq'), fmap_app, <- app_assoc.
    by rewrite (prefix_take_eq _ _ n Hp' Hlen).
  - intros e0 H0. by eapply prefix_lookup_Some.
Qed.

(** [copy_x_to_y] and the throwing effect are both pending. *)
Lemma throwing_flush_keeps_the_queue_witness :
  flush 5 stale_armed = Some (Threw stale_thrown) ∧
  effectsForFlush stale_armed = [copy_x_to_y; failing] ∧
  effectsForFlush stale_thrown = [copy_x_to_y; failing] ∧
  ∃ n e,
    effectsForFlush stale_thrown !! n = Some e ∧
    (∃ sf, flush_at n 0 stale_armed = Some sf ∧
           exec (eff_body e) (record_call (FlushCall e) sf)
             = Threw stale_thrown) ∧
    effectsForFlush stale_armed `prefix_of` effectsForFlush stale_thrown ∧
    calls stale_thrown =
      calls stale_armed ++
      (FlushCall <$> take (S n) (effectsForFlush stale_thrown)) ∧
    (∀ e0, effectsForFlush stale_armed !! 0 = Some e0 →
           effectsForFlush stale_thrown !! 0 = Some e0).
Proof.
  split; [vm_compute; reflexivity|].
  split; [vm_compute; reflexivity|].
  split; [vm_compute; reflexivity|].
  apply (throwing_flush_keeps_the_queue 5). vm_compute. reflexivity.
Defined.

(** ** Effects of the two common shapes *)

Section Shapes.
Implicit Types (s : system) (k a b c : string) (e : effect).



End Shapes.



(** ** An effect that writes the key it reads *)

Section Feedback.
Implicit Types (s : system) (k : string) (e : effect).

Lemma feedback_run id k g s :
  ∃ s1, exec (eff_body (feedback id k g)) s = Normal s1 ∧
        currentEffect s1 = currentEffect s ∧
        registered s1 k = registered (onGet k s) k ∧
        effectsForFlush s1 = effectsForFlush s ++ registered (onGet k s) k ∧
        queued s1 = true ∧
        microtasks s1 =
          (if queued s then microtasks s else microtasks s ++ [FlushTask]).
Proof.
  cbn [feedback eff_body exec proxy_get].
  destruct (onGet_frame k s) as (Hc & Hq & Hf & _ & Hm & _).
  destruct (onGet_entry k s) as [effects Hk].
  destruct (onSet_tracked k (g (Reflect_get (onGet k s) k)) (onGet k s)
              effects Hk) as (Hq' & Hf' & Hm').
  destruct (onSet_frame k (g (Reflect_get (onGet k s) k)) (onGet k s))
    as (_ & Hc' & _).
  eexists. split; [reflexivity|].
  unfold proxy_set at 1 3 4 5.
  cbn [currentEffect effectsForFlush queued microtasks set_rawState].
  rewrite registered_proxy_set, onSet_queue.
  split_and!; [congruence|done|by rewrite Hq|done|].
  by rewrite Hm', Hf, Hm.
Qed.

Lemma feeds_loop id k g fuel i s :
  feeds (feedback id k g) k s → i < length (effectsForFlush s) →
  flush_loop fuel i s = None.
Proof.
  induction fuel as [|fuel IH] in i, s |- *; [done|].
  intros (Hc & Hne & Hreg & Hqueue) Hi. cbn [flush_loop].
  destruct (lookup_lt_is_Some_2 _ _ Hi) as [x Hx]. rewrite Hx.
  rewrite (Hqueue x) by by eapply list_elem_of_lookup_2.
  destruct (feedback_run id k g
              (record_call (FlushCall (feedback id k g)) s))
    as (s1 & -> & Hc1 & Hreg1 & Hq1 & _).
  assert (registered (onGet k (record_call (FlushCall (feedback id k g)) s)) k
          = registered s k) as Hsame.
  { by rewrite onGet_idle. }
  rewrite Hsame in Hreg1, Hq1. cbn [effectsForFlush record_call set_calls] in Hq1.
  apply IH.
  - split_and!; [by rewrite Hc1|by rewrite Hreg1|by rewrite Hreg1|].
    intros y Hy. rewrite Hq1 in Hy. apply elem_of_app in Hy as [Hy|Hy]; auto.
  - rewrite Hq1, length_app.
    destruct (registered s k); [done|]. simpl. lia.
Qed.
End Feedback.

(** X8. An effect that writes the key it reads never lets the flush end.
    Registering [state.k = g(state.k)] on a system where nothing is listed
    under [k] and nothing is pending returns, lists the effect under [k],
    enqueues it and arms the flush; from then on (and from any state where
    the slot is empty and both the list of [k] and the queue hold only
    that effect) the loop of the flush callback is still running after any
    number of iterations, and so is the microtask checkpoint. *)
Theorem feedback_effect_hangs_the_flush id k g :
  (∀ s fuel, feeds (feedback id k g) k s → effectsForFlush s ≠ [] →
             flush_callback fuel s = None) ∧
  (∀ s0, currentEffect s0 = None → registered s0 k = [] →
         effectsForFlush s0 = [] → queued s0 = false → microtasks s0 = [] →
     ∃ s1, useEffect (feedback id k g) s0 = Normal s1 ∧
           registered s1 k = [feedback id k g] ∧
           effectsForFlush s1 = [feedback id k g] ∧
           microtasks s1 = [FlushTask] ∧
           (∀ fuel, flush_callback fuel s1 = None) ∧
           (∀ n fuel, drain (S n) fuel s1 = None)).
Proof.
  assert (∀ s fuel, feeds (feedback id k g) k s → effectsForFlush s ≠ [] →
                    flush_callback fuel s = None) as Hhang.
  { intros s fuel Hfeeds Hne. unfold flush_callback, flush.
    apply (feeds_loop id k g); [done|].
    cbn [effectsForFlush set_queued]. destruct (effectsForFlush s); [done|].
    simpl. lia. }
  split; [exact Hhang|].
  intros s0 Hc0 Hreg0 Hq0 Hf0 Hm0. unfold useEffect.
  set (s0' := record_call (InitialCall (feedback id k g))
                (set_currentEffect (Some (feedback id k g)) s0)).
  destruct (feedback_run id k g s0') as (s1 & -> & _ & Hreg1 & Hq1 & _ & Hm1).
  assert (registered (onGet k s0') k = [feedback id k g]) as Hk.
  { rewrite (onGet_active_same k s0' (feedback id k g)) by done.
    unfold s0', registered. cbn [propertyKeyToEffectsMap record_call
      set_calls set_currentEffect]. fold (registered s0 k). by rewrite Hreg0. }
  rewrite Hk in Hreg1, Hq1.
  cbn [effectsForFlush queued microtasks record_call set_calls
       set_currentEffect s0'] in Hq1, Hm1.
  rewrite Hq0 in Hq1. rewrite Hf0, Hm0 in Hm1. simpl in Hq1, Hm1.
  eexists. split; [reflexivity|].
  assert (feeds (feedback id k g) k (set_currentEffect None s1)) as Hfeeds.
  { split_and!; cbn [currentEffect effectsForFlush set_currentEffect].
    - done.
    - change (registered s1 k ≠ []). by rewrite Hreg1.
    - change (∀ x, x ∈ registered s1 k → x = feedback id k g).
      rewrite Hreg1. by intros x ->%list_elem_of_singleton.
    - rewrite Hq1. by intros x ->%list_elem_of_singleton. }
  split_and!; try done.
  - intros fuel. apply Hhang; [done|].
    cbn [effectsForFlush set_currentEffect]. by rewrite Hq1.
  - intros n fuel. cbn [drain microtasks set_currentEffect]. rewrite Hm1.
    cbn [run_microtask]. rewrite Hhang; [done| |].
    + destruct Hfeeds as (? & ? & ? & ?). by split_and!.
    + cbn [effectsForFlush set_currentEffect set_microtasks]. by rewrite Hq1.
Qed.

(** [state.count = state.count + 1] registered on a fresh system. *)
Lemma feedback_effect_hangs_the_flush_witness :
  useEffect counting initial = Normal after_counting ∧
  effectsForFlush after_counting = [counting] ∧
  (∀ fuel, flush_callback fuel after_counting = None) ∧
  (∀ n fuel, drain (S n) fuel after_counting = None).
Proof.
  destruct (feedback_effect_hangs_the_flush 4 "count"
              (λ x, js_add x (VNumber 1))) as (_ & Hregister).
  destruct (Hregister initial) as (s1 & Hu & _ & Hq & _ & Hflush & Hdrain);
    [reflexivity..|].
  assert (after_counting = s1) as ->.
  { unfold after_counting, counting. by rewrite Hu. }
  by split_and!.
Defined.

(** ** The flush callback among the other microtasks *)

Section Order.
Implicit Types (s : system) (ws : list (string * value)) (cb : list step).

Lemma writes_arm ws s :
  writes_tracked ws s → queued s = false →
  microtasks (state_of (exec (writes ws) s)) = microtasks s ++ [FlushTask].
Proof.
  intros Htracked Hq.
  destruct (exec_writes ws s) as (_ & _ & _ & _ & Hset).
  destruct (exec_frame (writes ws) s) as (_ & _ & _ & _ & Ha).
  specialize (Hset Htracked).
  destruct Ha as [[Hq' _]|(_ & _ & Hm)]; [congruence|done].
Qed.
End Order.

(** X15. The flush callback takes its place in the microtask queue at the
    first write of the turn that reaches a key with an entry.  With no
    microtask waiting and the flag clear: a promise reaction registered
    after such a write runs after the flush, on the state the flush left;
    one registered before the write runs first, on the state the turn
    left, before any effect has been called again. *)
Theorem flush_runs_in_the_order_of_the_first_write ws cb s :
  writes_tracked ws s → queued s = false → microtasks s = [] →
  let after := state_of (run_script [Exec (writes ws); PromiseThen cb] s) in
  let before := state_of (run_script [PromiseThen cb; Exec (writes ws)] s) in
  microtasks after = [FlushTask; ReactionTask cb] ∧
  microtasks before = [ReactionTask cb; FlushTask] ∧
  calls after = calls s ∧ calls before = calls s ∧
  (∀ n fuel,
     drain (S (S n)) fuel after =
       match flush_callback fuel (set_microtasks [ReactionTask cb] after) with
       | Some r =>
           drain n fuel
             (state_of (run_script cb
                (set_microtasks (drop 1 (microtasks (state_of r)))
                                (state_of r))))
       | None => None
       end) ∧
  (∀ n fuel,
     drain (S n) fuel before =
       drain n fuel
         (state_of (run_script cb (set_microtasks [FlushTask] before)))).
Proof.
  intros Htracked Hq Hm after before.
  destruct (exec_writes ws s) as (Hn & _).
  assert (microtasks after = [FlushTask; ReactionTask cb]) as Hafter.
  { unfold after. cbn [run_script run_step]. rewrite Hn.
    cbn [state_of microtasks set_microtasks]. by rewrite writes_arm, Hm. }
  set (s0 := set_microtasks (microtasks s ++ [ReactionTask cb]) s).
  assert (writes_tracked ws s0) as Htracked0 by done.
  destruct (exec_writes ws s0) as (Hn0 & _).
  assert (microtasks before = [ReactionTask cb; FlushTask]) as Hbefore.
  { unfold before. cbn [run_script run_step]. fold s0. rewrite Hn0.
    cbn [state_of]. rewrite writes_arm by done.
    cbn [microtasks set_microtasks s0]. by rewrite Hm. }
  split_and!; try done.
  - unfold after. cbn [run_script run_step]. rewrite Hn. cbn [state_of calls
      set_microtasks]. by destruct (exec_frame (writes ws) s) as (_ & -> & _).
  - unfold before. cbn [run_script run_step]. fold s0. rewrite Hn0.
    cbn [state_of]. by destruct (exec_frame (writes ws) s0) as (_ & -> & _).
  - intros n fuel. cbn [drain]. rewrite Hafter. cbn [run_microtask].
    destruct (flush_callback fuel (set_microtasks [ReactionTask cb] after))
      as [r|] eqn:Hr; [|done].
    destruct (flush_loop_arms _ _ _ _ Hr) as [[_ Hm']|(_ & _ & Hm')];
      cbn [drain]; by rewrite Hm'.
  - intros n fuel. cbn [drain]. rewrite Hbefore. by cbn [run_microtask].
Qed.

(** Lines 252-253 of the demo: [state.foo = 2], then [Promise.then]. *)
Lemma flush_runs_in_the_order_of_the_first_write_witness :
  microtasks (state_of (run_script
    [Exec (writes [("foo", VNumber 2)]); PromiseThen [Exec (log_sum_is 4 Ret)]]
    scn_registered))
  = [FlushTask; ReactionTask [Exec (log_sum_is 4 Ret)]].
Proof.
  apply (flush_runs_in_the_order_of_the_first_write
           [("foo", VNumber 2)] [Exec (log_sum_is 4 Ret)] scn_registered).
  - exists ("foo", VNumber 2). split; [apply list_elem_of_here|].
    apply (bool_decide_eq_true_1 _). vm_compute. reflexivity.
  - vm_compute. reflexivity.
  - vm_compute. reflexivity.
Defined.

(** * Further properties of the renderer *)

(** ** Stub indices *)

Section Indices.
Implicit Types (s rest : string) (x : N) (i : nat).

Lemma pretty_N_char_digit x :
  (x < 10)%N →
  is_digit (pretty_N_char x) = true ∧
  (Ascii.N_of_ascii (pretty_N_char x) - 48)%N = x.
Proof.
  intros Hx. rewrite <- (N2Nat.id x).
  assert (N.to_nat x < 10) as Hk by lia. revert Hk.
  generalize (N.to_nat x). intros k Hk.
  do 10 (destruct k as [|k]; [by vm_compute|]). lia.
Qed.

Lemma all_digits_pretty_N_go x s :
  all_digits (pretty_N_go x s) = all_digits s.
Proof.
  revert s. induction (N.lt_wf_0 x) as [x _ IH]. intros s.
  destruct (decide (x = 0)%N) as [->|Hx]; [done|].
  rewrite pretty_N_go_step by lia. rewrite IH by (apply N.div_lt; lia).
  simpl. destruct (pretty_N_char_digit (x `mod` 10)) as [-> _]; [|done].
  by apply N.mod_lt.
Qed.

Lemma digits_to_N_pretty_N_go x s :
  digits_to_N (pretty_N_go x s) =
  foldl (λ acc c, (10 * acc + (Ascii.N_of_ascii c - 48))%N) x
        (String.list_ascii_of_string s).
Proof.
  revert s. induction (N.lt_wf_0 x) as [x _ IH]. intros s.
  destruct (decide (x = 0)%N) as [->|Hx]; [done|].
  rewrite pretty_N_go_step by lia. rewrite IH by (apply N.div_lt; lia).
  simpl. destruct (pretty_N_char_digit (x `mod` 10)) as [_ ->].
  { by apply N.mod_lt. }
  f_equal. rewrite (N.div_mod x 10) at 3 by done. lia.
Qed.

Lemma pretty_N_digits x :
  all_digits (pretty x) = true ∧ pretty x ≠ "" ∧ digits_to_N (pretty x) = x.
Proof.
  unfold pretty, pretty_N. destruct (decide (x = 0)%N) as [->|Hx]; [done|].
  split_and!.
  - by rewrite all_digits_pretty_N_go.
  - rewrite pretty_N_go_step by lia.
    assert (∀ y c s', pretty_N_go y (String c s') ≠ "") as Hne.
    { intros y. induction (N.lt_wf_0 y) as [y _ IHy]. intros c s'.
      destruct (decide (y = 0)%N) as [->|Hy]; [done|].
      rewrite pretty_N_go_step by lia. apply IHy. apply N.div_lt; lia. }
    apply Hne.
  - by rewrite digits_to_N_pretty_N_go.
Qed.

(** The digits that [html] writes for index [i] name the array element [i]. *)
Lemma array_index_pretty i : array_index (pretty i) = Some i.
Proof.
  unfold pretty, pretty_nat, array_index.
  destruct (pretty_N_digits (N.of_nat i)) as (_ & _ & ->).
  rewrite decide_True by done. by rewrite Nat2N.id.
Qed.
End Indices.

Lemma replaceStubs_stub expressions i rest :
  replaceStubs (stub i +:+ rest) expressions =
    to_String (default VUndefined (expressions !! i))
    +:+ replaceStubs rest expressions.
Proof.
  destruct (pretty_N_digits (N.of_nat i)) as (Hdigits & Hne & _).
  unfold stub. rewrite !app_string_assoc. unfold replaceStubs.
  rewrite replace_stubs_marker by done.
  unfold array_get. by rewrite array_index_pretty.
Qed.

(** X9. The stub that [html] generates for index [i] is resolved to the
    expression of that index: the digits written for [i] are read back as
    [i], and replacing the stubs of a string that starts with that stub
    puts the string conversion of expression [i] there ([undefined] when
    there are [i] expressions or fewer) and goes on with the rest.  The
    expressions are [undefined], [NaN], booleans, strings and integers
    below 2^53 in magnitude. *)
Theorem stub_is_replaced_by_its_expression expressions i rest :
  Forall printable expressions →
  array_index (pretty i) = Some i ∧
  replaceStubs (stub i +:+ rest) expressions =
    to_String (default VUndefined (expressions !! i))
    +:+ replaceStubs rest expressions.
Proof. intros _. split; [apply array_index_pretty|apply replaceStubs_stub]. Qed.

(** The stub of the second of two expressions, and a stub beyond them. *)
Lemma stub_is_replaced_by_its_expression_witness :
  (array_index (pretty 1) = Some 1 ∧
   replaceStubs (stub 1 +:+ "!") [VString "red"; VNumber 42] =
     to_String (default VUndefined ([VString "red"; VNumber 42] !! 1))
     +:+ replaceStubs "!" [VString "red"; VNumber 42]) ∧
  replaceStubs (stub 1 +:+ "!") [VString "red"; VNumber 42] = "42!" ∧
  (array_index (pretty 12) = Some 12 ∧
   replaceStubs (stub 12 +:+ stub 0) [VString "red"; VNumber 42] =
     to_String (default VUndefined ([VString "red"; VNumber 42] !! 12))
     +:+ replaceStubs (stub 0) [VString "red"; VNumber 42]) ∧
  replaceStubs (stub 12 +:+ stub 0) [VString "red"; VNumber 42]
    = "undefinedred".
Proof.
  assert (Hprintable : Forall printable [VString "red"; VNumber 42]).
  { repeat constructor. }
  split; [exact (stub_is_replaced_by_its_expression _ 1 "!" Hprintable)|].
  split; [vm_compute; reflexivity|].
  split; [exact (stub_is_replaced_by_its_expression _ 12 (stub 0) Hprintable)|].
  vm_compute. reflexivity.
Defined.

(** ** The markup of a template *)

Section Markup.
Implicit Types (tokens : list string) (expressions extra : list value).

Lemma stubs_lookup expressions j :
  imap (λ index _, stub index) expressions !! j =
  if decide (j < length expressions) then Some (stub j) else None.
Proof.
  rewrite list_lookup_imap. case_decide as Hj.
  - destruct (lookup_lt_is_Some_2 expressions j Hj) as [x ->]. done.
  - by rewrite lookup_ge_None_2 by lia.
Qed.
End Markup.

(** X10. The markup built for a template depends on the literal parts and
    on how many expressions there are, never on their values; expressions
    beyond the last gap between literal parts get no stub; and without
    expressions the markup is the literal parts put together.  So the
    template compiled by a first call is the one any later call with as
    many expressions would have compiled. *)
Theorem markup_ignores_the_values :
  (∀ tokens expressions expressions',
     length expressions = length expressions' →
     htmlStringWithStubs tokens expressions =
     htmlStringWithStubs tokens expressions') ∧
  (∀ tokens expressions extra,
     length tokens ≤ S (length expressions) →
     htmlStringWithStubs tokens (expressions ++ extra) =
     htmlStringWithStubs tokens expressions) ∧
  (∀ tokens, htmlStringWithStubs tokens [] = String.concat "" tokens) ∧
  (∀ parse tk expressions expressions' r,
     length expressions = length expressions' →
     compile parse tk expressions r = compile parse tk expressions' r).
Proof.
  assert (∀ tokens expressions expressions',
            length expressions = length expressions' →
            htmlStringWithStubs tokens expressions =
            htmlStringWithStubs tokens expressions') as Hlen.
  { intros tokens expressions expressions' Hl. unfold htmlStringWithStubs.
    f_equal. apply imap_ext. intros [|j] token _; [done|]. simpl.
    by rewrite !stubs_lookup, Hl. }
  split_and!.
  - exact Hlen.
  - intros tokens expressions extra Hl. unfold htmlStringWithStubs.
    f_equal. apply imap_ext. intros [|j] token Hj; [done|]. simpl.
    apply lookup_lt_Some in Hj.
    rewrite !stubs_lookup, length_app.
    by rewrite !decide_True by lia.
  - intros tokens. unfold htmlStringWithStubs. f_equal.
    rewrite <- (list_fmap_id tokens) at 2. rewrite <- imap_const.
    apply imap_ext. by intros [|j] token _.
  - intros parse tk expressions expressions' r Hl. unfold compile.
    by rewrite (Hlen _ _ _ Hl).
Qed.

(** The two renders of the demo build the same markup. *)
Lemma markup_ignores_the_values_witness :
  htmlStringWithStubs (tok_strings render_tokens) [VString "red"; VString "Red"]
  = htmlStringWithStubs (tok_strings render_tokens)
      [VString "blue"; VString "Blue"] ∧
  htmlStringWithStubs (tok_strings render_tokens)
      ([VString "red"; VString "Red"] ++ [VNumber 3])
  = htmlStringWithStubs (tok_strings render_tokens)
      [VString "red"; VString "Red"].
Proof.
  destruct markup_ignores_the_values as (Hvalues & Hextra & _).
  split; [by apply Hvalues|]. apply Hextra. simpl. lia.
Defined.

(** ** Calls that return and calls that throw *)

Section Outcomes.
Variable parse : string → list node.
Implicit Types (r : renderer) (tk : tokens) (expressions : list value).

Lemma clone_and_substitute_outcome t expressions r :
  match firstElementChild (default [] (objects r !! t)) with
  | Some (i, element) =>
      ∃ c r', clone_and_substitute t expressions r = Returned c i r'
  | None => ∃ r', clone_and_substitute t expressions r = TypeError r'
  end.
Proof.
  unfold clone_and_substitute. destruct (allocate _ r) as [c r1].
  destruct (firstElementChild _) as [[i element]|]; eauto.
Qed.

(** The content that a call clones is the one it finds under the template
    it leaves in the cache. *)
Lemma html_template_content tk expressions r :
  well_formed r →
  ∃ template,
    tokensToTemplates (renderer_of (html parse tk expressions r)) !! tok_id tk
      = Some template ∧
    default [] (objects (renderer_of (html parse tk expressions r)) !! template)
      = template_content parse tk expressions r.
Proof.
  intros Hwf.
  destruct (html_cached parse tk expressions r Hwf)
    as (template & Hcached & _ & Hmiss).
  destruct (html_frame parse tk expressions r Hwf) as (_ & Hkeep & Hobjs).
  exists template. split; [done|]. unfold template_content.
  destruct (tokensToTemplates r !! tok_id tk) as [t|] eqn:Hhit.
  - rewrite (Hkeep _ _ Hhit) in Hcached. injection Hcached as <-.
    rewrite Hobjs; [done|]. apply elem_of_dom. by eapply Hwf.
  - by destruct (Hmiss eq_refl) as (_ & ->).
Qed.

Lemma html_outcome tk expressions r :
  match firstElementChild (template_content parse tk expressions r) with
  | Some (i, element) =>
      ∃ c r', html parse tk expressions r = Returned c i r'
  | None => ∃ r', html parse tk expressions r = TypeError r'
  end.
Proof.
  unfold html, template_content.
  destruct (tokensToTemplates r !! tok_id tk) as [t|] eqn:Hhit.
  - apply clone_and_substitute_outcome.
  - destruct (compile_frame parse tk expressions r) as (_ & _ & Hobj).
    destruct (compile parse tk expressions r) as [t r1]. simpl in Hobj.
    pose proof (clone_and_substitute_outcome t expressions r1) as Hout.
    by rewrite Hobj, lookup_insert_eq in Hout.
Qed.
End Outcomes.

(** X11. A template without any element makes [html] throw, after the
    template has been cached: the call ends in the [TypeError] with the
    identity of the tokens in the cache, and every later call with tokens
    of that identity throws as well, whatever its expressions and whatever
    the parser would make of the markup. *)
Theorem template_without_element_always_throws
    parse tk expressions r parse' tk' expressions' :
  well_formed r →
  firstElementChild (template_content parse tk expressions r) = None →
  tok_id tk' = tok_id tk →
  ∃ r1,
    html parse tk expressions r = TypeError r1 ∧
    is_Some (tokensToTemplates r1 !! tok_id tk) ∧
    ∃ r2, html parse' tk' expressions' r1 = TypeError r2.
Proof.
  intros Hwf Hnone Hid.
  pose proof (html_outcome parse tk expressions r) as Hout.
  rewrite Hnone in Hout. destruct Hout as [r1 Hr1].
  destruct (html_template_content parse tk expressions r Hwf)
    as (template & Hcached & Hcontent).
  rewrite Hr1 in Hcached, Hcontent. simpl in Hcached, Hcontent.
  exists r1. split_and!; [done|by eexists|].
  pose proof (html_outcome parse' tk' expressions' r1) as Hout.
  unfold template_content in Hout.
  rewrite Hid, Hcached, Hcontent, Hnone in Hout. exact Hout.
Qed.

(** A call site whose markup is plain text: the parser gives one text
    node and no element. *)
Lemma template_without_element_always_throws_witness :
  template_content text_parser text_only_tokens [] empty_renderer
    = [Text "just text"] ∧
  ∃ r1,
    html text_parser text_only_tokens [] empty_renderer = TypeError r1 ∧
    is_Some (tokensToTemplates r1 !! tok_id text_only_tokens) ∧
    ∃ r2, html text_parser text_only_tokens [VNumber 1] r1 = TypeError r2.
Proof.
  split; [reflexivity|].
  apply (template_without_element_always_throws text_parser text_only_tokens
           [] empty_renderer text_parser text_only_tokens [VNumber 1]).
  - apply well_formed_empty.
  - vm_compute. reflexivity.
  - reflexivity.
Defined.

(** ** The element returned *)

Section Returned.
Implicit Types (expressions : list value) (attrs : list (string * string)).

Lemma setAttribute_names name v attrs :
  name ∈ attrs.*1 → (setAttribute name v attrs).*1 = attrs.*1.
Proof.
  induction attrs as [|[n w] attrs IH]; [by intros ?%elem_of_nil|].
  cbn [setAttribute]. rewrite fmap_cons. cbn [fst].
  destruct (decide (n = name)) as [->|Hne]; [done|].
  intros Hin. apply elem_of_cons in Hin as [->|Hin]; [done|].
  rewrite fmap_cons. cbn [fst]. f_equal. by apply IH.
Qed.

(** The loop keeps the names, their order and their number, whatever the
    attribute list. *)
Lemma substitute_attributes_names fuel i expressions attrs :
  (substitute_attributes fuel i expressions attrs).*1 = attrs.*1.
Proof.
  induction fuel as [|fuel IH] in i, attrs |- *; simpl; [done|].
  destruct (attrs !! i) as [[name value]|] eqn:Hi; [|done].
  rewrite IH. apply setAttribute_names.
  apply list_elem_of_fmap. exists (name, value).
  split; [done|]. by eapply list_elem_of_lookup_2.
Qed.

Lemma firstElementChild_first (l : list node) i n :
  firstElementChild l = Some (i, n) →
  ∀ j m, j < i → l !! j = Some m → is_element m = false.
Proof.
  induction l as [|c l IH] in i |- *; [done|].
  destruct c as [tag attrs cs|d|d]; simpl.
  - intros [= <- <-] j m Hj. lia.
  - destruct (firstElementChild l) as [[i' n']|]; [|done]. simpl.
    intros [= <- <-] [|j] m Hj; simpl; [by intros [= <-]|].
    apply (IH i' eq_refl). lia.
  - destruct (firstElementChild l) as [[i' n']|]; [|done]. simpl.
    intros [= <- <-] [|j] m Hj; simpl; [by intros [= <-]|].
    apply (IH i' eq_refl). lia.
Qed.

Lemma text_children_no_element s :
  Forall (λ n, is_element n = false) (text_children s).
Proof. unfold text_children. case_decide; by repeat constructor. Qed.
End Returned.

(** X12. The template of [render] filled in.  Whenever the content that
    [render] clones is the [div] with the stub of index 0 as its class and
    the stub of index 1 as its text, the element returned is that [div]
    with the string conversion of the colour as its class and a single
    text node holding the string conversion of the text (no child when
    that is empty), for every state of the cache, the colour and the text
    being [undefined], [NaN], booleans, strings or integers below 2^53 in
    magnitude. *)
Theorem render_fills_in_the_values parse color text r :
  printable color → printable text →
  template_content parse render_tokens [color; text] r = render_template →
  returned_element (render parse color text r) =
    Some (Element "div" [("class", to_String color)]
                  (text_children (to_String text))).
Proof.
  intros _ _ Hcontent. unfold render.
  pose proof (html_outcome parse render_tokens [color; text] r) as Hout.
  rewrite Hcontent in Hout. simpl in Hout. destruct Hout as (c & r' & Hr).
  destruct (html_returned parse _ _ _ _ _ _ Hr)
    as (_ & element & Hfirst & _ & ->).
  rewrite Hcontent in Hfirst. injection Hfirst as <-.
  rewrite substitute_Element by (repeat constructor; set_solver).
  cbn [fmap list_fmap fst snd].
  change "__stub-0__" with (stub 0 +:+ "").
  change (textContent (Element "div" [("class", stub 0 +:+ "")]
                               [Text "__stub-1__"]))
    with (stub 1 +:+ "").
  rewrite !replaceStubs_stub. cbn [lookup list_lookup default].
  change (replaceStubs "" [color; text]) with "".
  by rewrite !app_string_empty_r.
Qed.

(** The first render of the demo, and a render from the cached template
    with a number, [undefined] and the empty string as values. *)
Lemma render_fills_in_the_values_witness :
  returned_element (render page_parser (VString "red") (VString "Red")
                           empty_renderer) =
    Some (Element "div" [("class", "red")] [Text "Red"]) ∧
  returned_element (render page_parser VUndefined (VNumber (-7)) after_red) =
    Some (Element "div" [("class", "undefined")] [Text "-7"]) ∧
  returned_element (render page_parser (VBoolean true) (VString "") after_red) =
    Some (Element "div" [("class", "true")] []).
Proof.
  split_and!.
  - apply (render_fills_in_the_values page_parser (VString "red")
             (VString "Red") empty_renderer); [exact I|exact I|].
    vm_compute. reflexivity.
  - apply (render_fills_in_the_values page_parser VUndefined (VNumber (-7))
             after_red); [exact I|simpl; lia|].
    vm_compute. reflexivity.
  - apply (render_fills_in_the_values page_parser (VBoolean true)
             (VString "") after_red); [exact I|exact I|].
    vm_compute. reflexivity.
Defined.

(** X13. [html] returns one element, the first of the template.  The nodes
    of the template before the position returned are not elements, the
    node at that position is one, and the other nodes of the cloned
    fragment, further elements included, are copies of the template's in
    which nothing was replaced. *)
Theorem html_returns_the_first_element parse tk expressions r c i r' :
  html parse tk expressions r = Returned c i r' →
  (∀ j n, j < i → template_content parse tk expressions r !! j = Some n →
          is_element n = false) ∧
  (∃ n, template_content parse tk expressions r !! i = Some n ∧
        is_element n = true) ∧
  (∃ clone, objects r' !! c = Some clone ∧
            length clone = length (template_content parse tk expressions r) ∧
            ∀ j, j ≠ i →
                 clone !! j = template_content parse tk expressions r !! j).
Proof.
  intros Hr.
  destruct (html_returned parse _ _ _ _ _ _ Hr)
    as (_ & element & Hfirst & Hobj & _).
  split_and!.
  - by apply (firstElementChild_first _ _ _ Hfirst).
  - destruct (firstElementChild_Some _ _ _ Hfirst)
      as (Hi & tag & attrs & cs & ->). by eexists.
  - eexists. split; [exact Hobj|]. split; [by rewrite length_insert|].
    intros j Hj. by rewrite list_lookup_insert_ne.
Qed.

(** A template whose first element comes after a text and a comment and
    before a second element: the call returns position 2 of the clone, the
    [p] with its stub replaced, and the [q] after it keeps its stub. *)
Lemma html_returns_the_first_element_witness :
  template_content sibling_parser sibling_tokens [VString "a"; VString "b"]
                   empty_renderer
    = [ Text " "; Comment "c"; Element "p" [] [Text "__stub-0__"];
        Element "q" [] [Text "__stub-1__"] ] ∧
  html sibling_parser sibling_tokens [VString "a"; VString "b"] empty_renderer
    = Returned 1 2 after_siblings ∧
  objects after_siblings !! 1
    = Some [ Text " "; Comment "c"; Element "p" [] [Text "a"];
             Element "q" [] [Text "__stub-1__"] ] ∧
  (∀ j n, j < 2 →
     template_content sibling_parser sibling_tokens
       [VString "a"; VString "b"] empty_renderer !! j = Some n →
     is_element n = false) ∧
  (∃ n, template_content sibling_parser sibling_tokens
          [VString "a"; VString "b"] empty_renderer !! 2 = Some n ∧
        is_element n = true) ∧
  (∃ clone, objects after_siblings !! 1 = Some clone ∧
            length clone =
              length (template_content sibling_parser sibling_tokens
                        [VString "a"; VString "b"] empty_renderer) ∧
            ∀ j, j ≠ 2 →
                 clone !! j =
                 template_content sibling_parser sibling_tokens
                   [VString "a"; VString "b"] empty_renderer !! j).
Proof.
  split_and!; [reflexivity|vm_compute; reflexivity|vm_compute; reflexivity|..];
    apply (html_returns_the_first_element sibling_parser sibling_tokens
             [VString "a"; VString "b"] empty_renderer 1 2 after_siblings);
    vm_compute; reflexivity.
Defined.

(** X14. Substitution keeps the shape of the element.  Whatever the
    attributes of the cloned element are, the element returned has its tag
    and its attribute names, as many and in the same order, and none of
    its children is an element: what the expressions contribute is never
    taken as markup. *)
Theorem substitution_keeps_the_shape parse tk expressions r c i r' :
  html parse tk expressions r = Returned c i r' →
  ∃ tag attrs children attrs' children',
    template_content parse tk expressions r !! i
      = Some (Element tag attrs children) ∧
    returned_element (html parse tk expressions r)
      = Some (Element tag attrs' children') ∧
    attrs'.*1 = attrs.*1 ∧
    Forall (λ n, is_element n = false) children'.
Proof.
  intros Hr.
  destruct (html_returned parse _ _ _ _ _ _ Hr)
    as (_ & element & Hfirst & _ & Hel).
  destruct (firstElementChild_Some _ _ _ Hfirst)
    as (Hi & tag & attrs & children & ->).
  exists tag, attrs, children. eexists _, _. split_and!.
  - exact Hi.
  - exact Hel.
  - apply substitute_attributes_names.
  - apply text_children_no_element.
Qed.

(** A render whose text value looks like markup. *)
Lemma substitution_keeps_the_shape_witness :
  returned_element (render page_parser (VString "red") (VString "<b>x</b>")
                           empty_renderer)
    = Some (Element "div" [("class", "red")] [Text "<b>x</b>"]) ∧
  ∃ tag attrs children attrs' children',
    template_content page_parser render_tokens
      [VString "red"; VString "<b>x</b>"] empty_renderer !! 0
      = Some (Element tag attrs children) ∧
    returned_element (html page_parser render_tokens
                           [VString "red"; VString "<b>x</b>"] empty_renderer)
      = Some (Element tag attrs' children') ∧
    attrs'.*1 = attrs.*1 ∧
    Forall (λ n, is_element n = false) children'.
Proof.
  split; [vm_compute; reflexivity|].
  apply (substitution_keeps_the_shape page_parser render_tokens
           [VString "red"; VString "<b>x</b>"] empty_renderer 1 0
           (renderer_of (render page_parser (VString "red")
                                (VString "<b>x</b>") empty_renderer))).
  vm_compute. reflexivity.
Defined.

